(** * Query contract of the Quran word-bounds scripts

    A shallow embedding of [example_usage.py] and [explore_database.py].
    Both scripts talk to an SQLite file through Python's [sqlite3] module:
    they connect, run parameterised SELECT statements, fetch the rows and
    close the connection.  The embedding has three layers:

    - the two tables, as lists of rows in the order the engine scans them;
    - the handful of SQL the scripts use (WHERE, ORDER BY, GROUP BY with
      COUNT/MIN/MAX), as list functions;
    - the [sqlite3] calls, as a state-and-exception monad over a world
      that holds the database file, the open connections and the calls
      made on the module.

    Console output ([print]) is presentation only and is left out; every
    function is modelled by what it does to the world and what it returns.
    Columns are integers (text for [arabic_word] and [line_type]), as the
    tables declare them; NULLs do not occur.  An SQLite integer has 64
    bits: a stored value fits, and binding a Python integer that does
    not fit raises. *)

From Stdlib Require Import ZArith Lia.
From stdpp Require Import base decidable option list sorting strings numbers.

Local Open Scope Z_scope.

(** ** SQLite integers *)

Definition int64 (z : Z) : Prop :=
  -9223372036854775808 ≤ z ≤ 9223372036854775807.

Definition int64b (z : Z) : bool :=
  (-9223372036854775808 <=? z) && (z <=? 9223372036854775807).

(** ** The tables *)

(** A row holds its columns and the fact that its integers are SQLite
    integers. *)
Module word_bounds.
Record row := {
  page_number : Z;
  sura_number : Z;
  ayah_number : Z;
  word_position : Z;
  arabic_word : string;
  min_x : Z;
  max_x : Z;
  min_y : Z;
  max_y : Z;
  fits : Is_true (forallb int64b
                    [page_number; sura_number; ayah_number; word_position;
                     min_x; max_x; min_y; max_y])
}.
End word_bounds.

Module glyph_bounds.
Record row := {
  page_number : Z;
  line_number : Z;
  line_position : Z;
  line_type : string;
  min_x : Z;
  max_x : Z;
  min_y : Z;
  max_y : Z;
  fits : Is_true (forallb int64b
                    [page_number; line_number; line_position;
                     min_x; max_x; min_y; max_y])
}.
End glyph_bounds.

(** ** The SQL the scripts use *)

(** [ORDER BY c1, c2, ...] on integer columns compares the key tuples
    lexicographically, ascending. *)
Fixpoint lex_leb (k1 k2 : list Z) : bool :=
  match k1, k2 with
  | [], _ => true
  | _ :: _, [] => false
  | a :: k1', b :: k2' => (a <? b) || ((a =? b) && lex_leb k1' k2')
  end.

Definition lex_le (k1 k2 : list Z) : Prop := lex_leb k1 k2 = true.

Definition key_le {A} (key : A → list Z) : relation A :=
  λ a b, lex_le (key a) (key b).

#[global] Instance lex_le_dec k1 k2 : Decision (lex_le k1 k2).
Proof. unfold lex_le. apply _. Defined.

#[global] Instance key_le_dec {A} (key : A → list Z) a b :
  Decision (key_le key a b).
Proof. unfold key_le. apply _. Defined.

(** The engine sorts the selected rows on the key; which of two rows with
    equal keys comes first is the engine's business. *)
Definition order_by {A} (key : A → list Z) (rows : list A) : list A :=
  merge_sort (key_le key) rows.

(** [MIN(c)] and [MAX(c)] over a group whose first row is [r]. *)
Definition sql_min {A} (col : A → Z) (r : A) (rest : list A) : Z :=
  foldr (λ x m, Z.min (col x) m) (col r) rest.

Definition sql_max {A} (col : A → Z) (r : A) (rest : list A) : Z :=
  foldr (λ x m, Z.max (col x) m) (col r) rest.

(** The same over a whole table: NULL, here [None], when it is empty. *)
Definition agg_min {A} (col : A → Z) (rows : list A) : option Z :=
  match rows with
  | [] => None
  | r :: rest => Some (sql_min col r rest)
  end.

Definition agg_max {A} (col : A → Z) (rows : list A) : option Z :=
  match rows with
  | [] => None
  | r :: rest => Some (sql_max col r rest)
  end.

(** [COUNT( * )] and [COUNT(DISTINCT c)]. *)
Definition sql_count {A} (rows : list A) : Z := Z.of_nat (length rows).

Definition count_distinct {A K} `{EqDecision K} (col : A → K)
    (rows : list A) : Z :=
  Z.of_nat (length (remove_dups (col <$> rows))).

(** [GROUP BY k]: one group per distinct key.  A group is never empty, so
    it is kept as a first row and the rows after it, in scan order. *)
Definition group (K A : Type) : Type := K * (A * list A).

Fixpoint group_insert {A K} `{EqDecision K} (key : A → K) (r : A)
    (groups : list (group K A)) : list (group K A) :=
  match groups with
  | [] => [(key r, (r, []))]
  | (k, (r0, rest)) :: groups' =>
      if decide (key r = k) then (k, (r, r0 :: rest)) :: groups'
      else (k, (r0, rest)) :: group_insert key r groups'
  end.

Definition group_by {A K} `{EqDecision K} (key : A → K) (rows : list A)
  : list (group K A) :=
  foldr (group_insert key) [] rows.

Definition members {K A} (g : group K A) : list A := g.2.1 :: g.2.2.

(** ** The sqlite3 module *)

Inductive Error :=
| OperationalError   (* unable to open database file, no such table *)
| DatabaseError      (* file is not a database *)
| ProgrammingError   (* cannot operate on a closed database *)
| OverflowError      (* Python int too large to convert to SQLite INTEGER *)
| TypeError          (* subscripting None *)
| SystemExit (code : Z).

(** What sits at the database path.
    - [Unopenable]: [sqlite3.connect] itself raises.
    - [Missing]: there is no file; connecting creates an empty database.
    - [NotADatabase]: a file that is not an SQLite database; the
      connection opens (SQLite reads lazily) and every statement raises.
    - [Empty]: a database without the two tables; statements on the
      tables raise, the catalogue is readable and lists nothing.
    - [Snapshot]: a database that holds the two tables. *)
Inductive Store :=
| Unopenable
| Missing
| NotADatabase
| Empty
| Snapshot (words : list word_bounds.row) (glyphs : list glyph_bounds.row).

(** What is at the path once a connection has been opened on it. *)
Definition opened (s : Store) : Store :=
  match s with
  | Missing => Empty
  | s => s
  end.

Definition Connection := nat.

(** The calls a script makes on the module, as they reach it. *)
Inductive Call :=
| CallConnect
| CallExecute (conn : Connection)
| CallClose (conn : Connection).

(** The world a script runs in: the database file, the connections that
    are open, and the calls made so far, oldest first. *)
Record World := {
  store : Store;
  open_handles : list Connection;
  calls : list Call
}.

Definition called (c : Call) (w : World) : World :=
  {| store := store w; open_handles := open_handles w;
     calls := calls w ++ [c] |}.

Inductive outcome (A : Type) :=
| Return (a : A)
| Raise (e : Error).
Arguments Return {A} a.
Arguments Raise {A} e.

Definition IO (A : Type) : Type := World → outcome A * World.

Definition ret {A} (a : A) : IO A := λ w, (Return a, w).

Definition raise {A} (e : Error) : IO A := λ w, (Raise e, w).

Definition bind {A B} (m : IO A) (k : A → IO B) : IO B := λ w,
  match m w with
  | (Return a, w') => k a w'
  | (Raise e, w') => (Raise e, w')
  end.

#[global] Instance IO_ret : MRet IO := @ret.
#[global] Instance IO_bind : MBind IO := λ A B k m, bind m k.

(** [try: body except Exception: handler]: [SystemExit] is not an
    [Exception] and passes through. *)
Definition try_except {A} (body : IO A) (handler : Error → IO A) : IO A :=
  λ w,
  match body w with
  | (Raise (SystemExit c), w') => (Raise (SystemExit c), w')
  | (Raise e, w') => handler e w'
  | r => r
  end.

(** [try: body finally: cleanup]. *)
Definition try_finally {A} (body : IO A) (cleanup : IO unit) : IO A := λ w,
  match body w with
  | (Return a, w') =>
      match cleanup w' with
      | (Return _, w'') => (Return a, w'')
      | (Raise e, w'') => (Raise e, w'')
      end
  | (Raise e, w') =>
      match cleanup w' with
      | (Return _, w'') => (Raise e, w'')
      | (Raise e', w'') => (Raise e', w'')
      end
  end.

(** [sqlite3.connect(path)]: a connection nobody else holds. *)
Definition fresh_handle (hs : list Connection) : Connection :=
  S (max_list hs).

Definition sqlite3_connect : IO Connection := λ w,
  let w := called CallConnect w in
  match store w with
  | Unopenable => (Raise OperationalError, w)
  | s =>
      let h := fresh_handle (open_handles w) in
      (Return h,
       {| store := opened s; open_handles := h :: open_handles w;
          calls := calls w |})
  end.

(** [conn.close()]; closing twice is harmless. *)
Definition close (conn : Connection) : IO unit := λ w,
  let w := called (CallClose conn) w in
  (Return (),
   {| store := store w;
      open_handles := filter (λ h, h ≠ conn) (open_handles w);
      calls := calls w |}).

(** The rows a SELECT statement yields, its parameters bound, are a
    function of the two tables. *)
Definition Query (R : Type) : Type :=
  list word_bounds.row → list glyph_bounds.row → list R.

(** A value bound to a [?] of a statement. *)
Inductive param :=
| PInt (z : Z)
| PText (s : string).

(** Binding fails on an integer that SQLite cannot hold. *)
Definition bindable (p : param) : bool :=
  match p with
  | PInt z => int64b z
  | PText _ => true
  end.

(** What [cursor.execute] can be given: a SELECT with the values for its
    placeholders, or a statement that rewrites the tables.  The scripts
    only ever pass the first kind. *)
Inductive Statement (R : Type) :=
| Select (params : list param) (rows : Query R)
| Modify (params : list param)
    (change : list word_bounds.row * list glyph_bounds.row →
              list word_bounds.row * list glyph_bounds.row).
Arguments Select {R} params rows.
Arguments Modify {R} params change.

Definition params_of {R} (stmt : Statement R) : list param :=
  match stmt with
  | Select params _ => params
  | Modify params _ => params
  end.

(** [cursor.execute(sql, params)] on a cursor of [conn]; the value is the
    result set waiting in the cursor.  The statement is prepared first,
    which is where a missing table or a file that is no database shows;
    then the parameters are bound; then it runs. *)
Definition execute {R} (conn : Connection) (stmt : Statement R)
  : IO (list R) :=
  λ w,
  let w := called (CallExecute conn) w in
  if decide (conn ∈ open_handles w) then
    match store w with
    | Snapshot ws gs =>
        if forallb bindable (params_of stmt) then
          match stmt with
          | Select _ rows => (Return (rows ws gs), w)
          | Modify _ change =>
              (Return [],
               {| store := Snapshot (change (ws, gs)).1 (change (ws, gs)).2;
                  open_handles := open_handles w; calls := calls w |})
          end
        else (Raise OverflowError, w)
    | Empty => (Raise OperationalError, w)
    | NotADatabase => (Raise DatabaseError, w)
    | Missing => (Raise OperationalError, w)
    | Unopenable => (Raise OperationalError, w)
    end
  else (Raise ProgrammingError, w).

(** The same for a statement on the catalogue ([sqlite_master],
    [PRAGMA table_info]), a function of the table names. *)
Definition execute_catalog {R} (conn : Connection)
    (q : list string → list R) : IO (list R) :=
  λ w,
  let w := called (CallExecute conn) w in
  if decide (conn ∈ open_handles w) then
    match store w with
    | Snapshot _ _ => (Return (q ["word_bounds"; "glyph_bounds"]%string), w)
    | Empty => (Return (q []), w)
    | NotADatabase => (Raise DatabaseError, w)
    | Missing => (Raise OperationalError, w)
    | Unopenable => (Raise OperationalError, w)
    end
  else (Raise ProgrammingError, w).

Definition fetchall {R} (pending : list R) : list R := pending.

Definition fetchone {R} (pending : list R) : option R := head pending.

(** ** example_usage.py *)

Module example_usage.

Definition connect_db : IO Connection := sqlite3_connect.

(** (arabic_word, min_x, max_x, min_y, max_y, sura_number, ayah_number) *)
Definition area_row : Type := string * Z * Z * Z * Z * Z * Z.

Definition in_area (page_num x1 x2 y1 y2 : Z) (r : word_bounds.row) : Prop :=
  word_bounds.page_number r = page_num
  ∧ word_bounds.min_x r >= x1 ∧ word_bounds.max_x r <= x2
  ∧ word_bounds.min_y r >= y1 ∧ word_bounds.max_y r <= y2.

#[global] Instance in_area_dec p x1 x2 y1 y2 r :
  Decision (in_area p x1 x2 y1 y2 r).
Proof. unfold in_area. apply _. Defined.

Definition area_columns (r : word_bounds.row) : area_row :=
  (word_bounds.arabic_word r, word_bounds.min_x r, word_bounds.max_x r,
   word_bounds.min_y r, word_bounds.max_y r,
   word_bounds.sura_number r, word_bounds.ayah_number r).

Definition select_area (page_num x1 x2 y1 y2 : Z) : Query area_row :=
  λ ws _,
  area_columns
  <$> order_by (λ r, [word_bounds.min_y r; word_bounds.min_x r])
        (filter (in_area page_num x1 x2 y1 y2) ws).

Definition highlight_words_in_area (x1 y1 x2 y2 : Z) (page_num : option Z)
  : IO (list area_row) :=
  let page_num := default 2 page_num in
  conn ← connect_db;
  pending ← execute conn
              (Select [PInt page_num; PInt x1; PInt x2; PInt y1; PInt y2]
                 (select_area page_num x1 x2 y1 y2));
  let words := fetchall pending in
  close conn;;
  mret words.

(** (arabic_word, word_position, min_x, max_x, min_y, max_y, page_number) *)
Definition ayah_row : Type := string * Z * Z * Z * Z * Z * Z.

Definition in_ayah (sura_num ayah_num : Z) (r : word_bounds.row) : Prop :=
  word_bounds.sura_number r = sura_num ∧ word_bounds.ayah_number r = ayah_num.

#[global] Instance in_ayah_dec s a r : Decision (in_ayah s a r).
Proof. unfold in_ayah. apply _. Defined.

Definition ayah_columns (r : word_bounds.row) : ayah_row :=
  (word_bounds.arabic_word r, word_bounds.word_position r,
   word_bounds.min_x r, word_bounds.max_x r,
   word_bounds.min_y r, word_bounds.max_y r, word_bounds.page_number r).

Definition select_ayah (sura_num ayah_num : Z) : Query ayah_row :=
  λ ws _,
  ayah_columns
  <$> order_by (λ r, [word_bounds.word_position r])
        (filter (in_ayah sura_num ayah_num) ws).

Definition get_ayah_words (sura_num ayah_num : Z) : IO (list ayah_row) :=
  conn ← connect_db;
  pending ← execute conn
              (Select [PInt sura_num; PInt ayah_num]
                 (select_ayah sura_num ayah_num));
  let words := fetchall pending in
  close conn;;
  mret words.

(** (page_number, sura_number, ayah_number, word_position,
     min_x, max_x, min_y, max_y) *)
Definition occurrence_row : Type := Z * Z * Z * Z * Z * Z * Z * Z.

Definition occurrence_key (r : word_bounds.row) : list Z :=
  [word_bounds.page_number r; word_bounds.sura_number r;
   word_bounds.ayah_number r; word_bounds.word_position r].

Definition occurrence_columns (r : word_bounds.row) : occurrence_row :=
  (word_bounds.page_number r, word_bounds.sura_number r,
   word_bounds.ayah_number r, word_bounds.word_position r,
   word_bounds.min_x r, word_bounds.max_x r,
   word_bounds.min_y r, word_bounds.max_y r).

Definition select_occurrences (arabic_word : string) : Query occurrence_row :=
  λ ws _,
  occurrence_columns
  <$> order_by occurrence_key
        (filter (λ r, word_bounds.arabic_word r = arabic_word) ws).

Definition find_word_occurrences (arabic_word : string)
  : IO (list occurrence_row) :=
  conn ← connect_db;
  pending ← execute conn
              (Select [PText arabic_word] (select_occurrences arabic_word));
  let occurrences := fetchall pending in
  close conn;;
  mret occurrences.

(** (line_number, line_type, glyph_count, top, bottom, left, right) *)
Definition layout_row : Type := Z * string * Z * Z * Z * Z * Z.

Definition line_key (g : glyph_bounds.row) : Z * string :=
  (glyph_bounds.line_number g, glyph_bounds.line_type g).

Definition layout_columns (g : group (Z * string) glyph_bounds.row)
  : layout_row :=
  let '(k, (r, rest)) := g in
  (k.1, k.2, sql_count (r :: rest),
   sql_min glyph_bounds.min_y r rest, sql_max glyph_bounds.max_y r rest,
   sql_min glyph_bounds.min_x r rest, sql_max glyph_bounds.max_x r rest).

Definition select_layout (page_num : Z) : Query layout_row :=
  λ _ gs,
  layout_columns
  <$> order_by (λ g : group (Z * string) glyph_bounds.row, [g.1.1])
        (group_by line_key
           (filter (λ g, glyph_bounds.page_number g = page_num) gs)).

Definition get_page_layout (page_num : Z) : IO (list layout_row) :=
  conn ← connect_db;
  (* all glyphs on the page grouped by line *)
  pending ← execute conn (Select [PInt page_num] (select_layout page_num));
  let lines := fetchall pending in
  close conn;;
  mret lines.

(** (arabic_word, sura_number, ayah_number, word_position,
     min_x, max_x, min_y, max_y) *)
Definition click_row : Type := string * Z * Z * Z * Z * Z * Z * Z.

Definition hit (page_num x y : Z) (r : word_bounds.row) : Prop :=
  word_bounds.page_number r = page_num
  ∧ x >= word_bounds.min_x r ∧ x <= word_bounds.max_x r
  ∧ y >= word_bounds.min_y r ∧ y <= word_bounds.max_y r.

#[global] Instance hit_dec p x y r : Decision (hit p x y r).
Proof. unfold hit. apply _. Defined.

Definition click_columns (r : word_bounds.row) : click_row :=
  (word_bounds.arabic_word r, word_bounds.sura_number r,
   word_bounds.ayah_number r, word_bounds.word_position r,
   word_bounds.min_x r, word_bounds.max_x r,
   word_bounds.min_y r, word_bounds.max_y r).

(** No ORDER BY: the rows come in scan order. *)
Definition select_click (page_num x y : Z) : Query click_row :=
  λ ws _, click_columns <$> filter (hit page_num x y) ws.

Definition word_click_handler (x y page_num : Z) : IO (option click_row) :=
  conn ← connect_db;
  pending ← execute conn
              (Select [PInt page_num; PInt x; PInt x; PInt y; PInt y]
                 (select_click page_num x y));
  let word := fetchone pending in
  close conn;;
  match word with
  | Some word => mret (Some word)
  | None => mret None
  end.

(** The five demonstrations, in the order the script runs them. *)
Definition main : IO unit :=
  get_ayah_words 2 1;;
  highlight_words_in_area 0 0 600 400 (Some 2);;
  find_word_occurrences "ٱلْكِتَٰبُ";;
  get_page_layout 2;;
  word_click_handler 850 400 2;;
  mret ().

End example_usage.

(** ** explore_database.py *)

Module explore_database.

(** [try: connect except Exception: return None].  The row factory it
    sets only changes how a row's columns are addressed. *)
Definition connect_db : IO (option Connection) :=
  try_except (conn ← sqlite3_connect; mret (Some conn))
             (λ e, mret None).

Definition select_tables : list string → list string := λ tables, tables.

(** Modelled from the spec: the column lists of the two tables, which
    the repository does not declare (the database is built elsewhere);
    [PRAGMA table_info] reports them with their declared types. *)
Definition table_info (table_name : string)
  : list string → list (string * string) :=
  λ tables,
  if decide (table_name ∈ tables) then
    if decide (table_name = "word_bounds"%string) then
      [("page_number", "INTEGER"); ("sura_number", "INTEGER");
       ("ayah_number", "INTEGER"); ("word_position", "INTEGER");
       ("arabic_word", "TEXT"); ("min_x", "INTEGER"); ("max_x", "INTEGER");
       ("min_y", "INTEGER"); ("max_y", "INTEGER")]%string
    else
      [("page_number", "INTEGER"); ("line_number", "INTEGER");
       ("line_position", "INTEGER"); ("line_type", "TEXT");
       ("min_x", "INTEGER"); ("max_x", "INTEGER");
       ("min_y", "INTEGER"); ("max_y", "INTEGER")]%string
  else [].

Fixpoint for_each {A} (xs : list A) (body : A → IO unit) : IO unit :=
  match xs with
  | [] => mret ()
  | x :: xs' => body x;; for_each xs' body
  end.

Definition show_schema (cursor : Connection) : IO unit :=
  pending ← execute_catalog cursor select_tables;
  let tables := fetchall pending in
  for_each tables (λ table_name,
    execute_catalog cursor (table_info table_name);; mret ()).

(** An aggregate without GROUP BY yields exactly one row. *)
Definition select_word_count : Query Z := λ ws _, [sql_count ws].

Definition select_glyph_count : Query Z := λ _ gs, [sql_count gs].

Definition select_page_count : Query Z :=
  λ ws _, [count_distinct word_bounds.page_number ws].

Definition select_page_range : Query (option Z * option Z) :=
  λ ws _, [(agg_min word_bounds.page_number ws,
            agg_max word_bounds.page_number ws)].

Definition select_sura_count : Query Z :=
  λ ws _, [count_distinct word_bounds.sura_number ws].

Definition select_sura_range : Query (option Z * option Z) :=
  λ ws _, [(agg_min word_bounds.sura_number ws,
            agg_max word_bounds.sura_number ws)].

Definition show_summary_stats (cursor : Connection) : IO unit :=
  execute cursor (Select [] select_word_count);;
  execute cursor (Select [] select_glyph_count);;
  execute cursor (Select [] select_page_count);;
  execute cursor (Select [] select_page_range);;
  execute cursor (Select [] select_sura_count);;
  execute cursor (Select [] select_sura_range);;
  mret ().

(** The first ten words in reading order of the text; the statement
    selects all nine columns, so a row is the record. *)
Definition select_sample : Query word_bounds.row :=
  λ ws _, take 10 (order_by example_usage.occurrence_key ws).

Definition show_sample_data (cursor : Connection) : IO unit :=
  execute cursor (Select [] select_sample);;
  mret ().

Definition select_page_word_count (page_num : Z) : Query Z :=
  λ ws _,
  [sql_count (filter (λ r, word_bounds.page_number r = page_num) ws)].

Definition select_page_glyph_count (page_num : Z) : Query Z :=
  λ _ gs,
  [sql_count (filter (λ g, glyph_bounds.page_number g = page_num) gs)].

Definition select_page_line_count (page_num : Z) : Query Z :=
  λ _ gs,
  [count_distinct glyph_bounds.line_number
     (filter (λ g, glyph_bounds.page_number g = page_num) gs)].

Definition select_page_sura_count (page_num : Z) : Query Z :=
  λ ws _,
  [count_distinct word_bounds.sura_number
     (filter (λ r, word_bounds.page_number r = page_num) ws)].

Definition show_page_stats (cursor : Connection) (page_num : Z) : IO unit :=
  execute cursor (Select [PInt page_num] (select_page_word_count page_num));;
  execute cursor (Select [PInt page_num] (select_page_glyph_count page_num));;
  execute cursor (Select [PInt page_num] (select_page_line_count page_num));;
  execute cursor (Select [PInt page_num] (select_page_sura_count page_num));;
  mret ().

(** (page_number, sura_number, ayah_number, word_position,
     min_x, max_x, min_y, max_y) *)
Definition select_positions (arabic_word : string)
  : Query (Z * Z * Z * Z * Z * Z * Z * Z) :=
  λ ws _,
  (λ r, (word_bounds.page_number r, word_bounds.sura_number r,
         word_bounds.ayah_number r, word_bounds.word_position r,
         word_bounds.min_x r, word_bounds.max_x r,
         word_bounds.min_y r, word_bounds.max_y r))
  <$> order_by (λ r, [word_bounds.page_number r; word_bounds.sura_number r;
                      word_bounds.ayah_number r; word_bounds.word_position r])
        (filter (λ r, word_bounds.arabic_word r = arabic_word) ws).

(** The rows are only displayed; the function returns nothing. *)
Definition find_word_positions (cursor : Connection) (arabic_word : string)
  : IO unit :=
  pending ← execute cursor
              (Select [PText arabic_word] (select_positions arabic_word));
  let positions := fetchall pending in
  mret ().

(** [SELECT arabic_word FROM word_bounds LIMIT 1]. *)
Definition select_first_word : Query string :=
  λ ws _, take 1 (word_bounds.arabic_word <$> ws).

(** [show_example_queries] and the closing lines print fixed text and
    make no call. *)
Definition main : IO unit :=
  conn ← connect_db;
  match conn with
  | None => raise (SystemExit 1)
  | Some conn =>
      let cursor := conn in
      try_finally
        (try_except
           (show_schema cursor;;
            show_summary_stats cursor;;
            show_sample_data cursor;;
            show_page_stats cursor 2;;
            pending ← execute cursor (Select [] select_first_word);
            match fetchone pending with
            | None => raise TypeError
            | Some first_word => find_word_positions cursor first_word
            end)
           (λ e, mret ()))
        (close conn)
  end.

End explore_database.

(** ** Vocabulary of the statements *)

(** The world after further calls that left store and connections alone. *)
Definition after (cs : list Call) (w : World) : World :=
  {| store := store w; open_handles := open_handles w;
     calls := calls w ++ cs |}.

(** The world after a connection was opened, used and not closed. *)
Definition leaking (h : Connection) (cs : list Call) (w : World) : World :=
  {| store := opened (store w); open_handles := h :: open_handles w;
     calls := calls w ++ cs |}.

(** The shape the five lookups of [example_usage.py] share: connect, run
    one statement, fetch, close, return. *)
Definition scoped {R A} (stmt : Statement R) (fetch : list R → A) : IO A :=
  conn ← example_usage.connect_db;
  pending ← execute conn stmt;
  close conn;;
  mret (fetch pending).

Definition raises {A} (m : IO A) (w : World) : Prop :=
  ∃ e w', m w = (Raise e, w').

Definition unavailable (s : Store) : Prop :=
  s = Unopenable ∨ s = NotADatabase ∨ s = Empty ∨ s = Missing.

(** The box of a record contains a point, borders included. *)
Definition box_contains (r : word_bounds.row) (x y : Z) : Prop :=
  word_bounds.min_x r ≤ x ≤ word_bounds.max_x r
  ∧ word_bounds.min_y r ≤ y ≤ word_bounds.max_y r.

(** The box invariant of the stored records. *)
Definition well_formed (r : word_bounds.row) : Prop :=
  word_bounds.min_x r ≤ word_bounds.max_x r
  ∧ word_bounds.min_y r ≤ word_bounds.max_y r.

(** Columns of a region row, as the script indexes them. *)
Definition area_min_x (row : example_usage.area_row) : Z :=
  let '(_, min_x, _, _, _, _, _) := row in min_x.
Definition area_max_x (row : example_usage.area_row) : Z :=
  let '(_, _, max_x, _, _, _, _) := row in max_x.
Definition area_min_y (row : example_usage.area_row) : Z :=
  let '(_, _, _, min_y, _, _, _) := row in min_y.
Definition area_max_y (row : example_usage.area_row) : Z :=
  let '(_, _, _, _, max_y, _, _) := row in max_y.

(** Top to bottom, then left to right. *)
Definition reading_order (a b : example_usage.area_row) : Prop :=
  area_min_y a < area_min_y b
  ∨ (area_min_y a = area_min_y b ∧ area_min_x a ≤ area_min_x b).

(** Columns of an ayah row and of an occurrence row. *)
Definition ayah_word_position (row : example_usage.ayah_row) : Z :=
  let '(_, word_position, _, _, _, _, _) := row in word_position.



(** A lookup fails on a store it cannot read: an sqlite3 error reaches
    the caller in place of any rows, the script connected once, and the
    store is as it was, but for the empty database that connecting
    creates where no file was. *)
Definition fails_unavailable {A} (m : IO A) (w : World) : Prop :=
  ∃ e w',
    m w = (Raise e, w')
    ∧ (e = OperationalError ∨ e = DatabaseError)
    ∧ store w' = opened (store w)
    ∧ ∃ cs, calls w' = calls w ++ CallConnect :: cs ∧ CallConnect ∉ cs.

(** Columns of a layout row. *)
Definition layout_line (row : example_usage.layout_row) : Z :=
  let '(line_number, _, _, _, _, _, _) := row in line_number.
Definition layout_type (row : example_usage.layout_row) : string :=
  let '(_, line_type, _, _, _, _, _) := row in line_type.
Definition layout_count (row : example_usage.layout_row) : Z :=
  let '(_, _, glyph_count, _, _, _, _) := row in glyph_count.
Definition layout_top (row : example_usage.layout_row) : Z :=
  let '(_, _, _, top, _, _, _) := row in top.
Definition layout_bottom (row : example_usage.layout_row) : Z :=
  let '(_, _, _, _, bottom, _, _) := row in bottom.
Definition layout_left (row : example_usage.layout_row) : Z :=
  let '(_, _, _, _, _, x_left, _) := row in x_left.
Definition layout_right (row : example_usage.layout_row) : Z :=
  let '(_, _, _, _, _, _, x_right) := row in x_right.

Definition layout_key (row : example_usage.layout_row) : Z * string :=
  (layout_line row, layout_type row).

(** [v] is the least, respectively greatest, value of a column over rows. *)
Definition least {A} (col : A → Z) (rows : list A) (v : Z) : Prop :=
  (∃ r, r ∈ rows ∧ col r = v) ∧ ∀ r, r ∈ rows → v ≤ col r.

Definition greatest {A} (col : A → Z) (rows : list A) (v : Z) : Prop :=
  (∃ r, r ∈ rows ∧ col r = v) ∧ ∀ r, r ∈ rows → col r ≤ v.

(** The glyphs of a page that lie on a line of a given number and type. *)
Definition glyphs_of_line (page line : Z) (type : string)
    (gs : list glyph_bounds.row) : list glyph_bounds.row :=
  filter (λ g, glyph_bounds.page_number g = page
               ∧ glyph_bounds.line_number g = line
               ∧ glyph_bounds.line_type g = type) gs.

(** A computation that opens and closes nothing. *)
Definition keeps_handles {A} (m : IO A) : Prop :=
  ∀ w, open_handles (m w).2 = open_handles w.

(** ** A small store to run the scripts on *)

Definition word (page sura ayah position : Z) (text : string)
    (x0 x1 y0 y1 : Z)
    (fits : Is_true (forallb int64b
                       [page; sura; ayah; position; x0; x1; y0; y1]))
  : word_bounds.row :=
  {| word_bounds.page_number := page; word_bounds.sura_number := sura;
     word_bounds.ayah_number := ayah; word_bounds.word_position := position;
     word_bounds.arabic_word := text;
     word_bounds.min_x := x0; word_bounds.max_x := x1;
     word_bounds.min_y := y0; word_bounds.max_y := y1;
     word_bounds.fits := fits |}.

Definition glyph (page line position : Z) (type : string)
    (x0 x1 y0 y1 : Z)
    (fits : Is_true (forallb int64b [page; line; position; x0; x1; y0; y1]))
  : glyph_bounds.row :=
  {| glyph_bounds.page_number := page; glyph_bounds.line_number := line;
     glyph_bounds.line_position := position; glyph_bounds.line_type := type;
     glyph_bounds.min_x := x0; glyph_bounds.max_x := x1;
     glyph_bounds.min_y := y0; glyph_bounds.max_y := y1;
     glyph_bounds.fits := fits |}.

Definition sample_words : list word_bounds.row :=
  [ word 2 2 1 1 "alif" 700 760 10 30 I;
    word 2 2 2 3 "kitab" 550 650 40 60 I;
    word 2 2 2 1 "dhalika" 100 150 40 60 I;
    word 2 2 2 7 "huda" 20 90 40 60 I;
    word 2 2 2 4 "la" 300 340 10 30 I;
    word 3 2 6 1 "kitab" 100 150 10 30 I ].

Definition sample_glyphs : list glyph_bounds.row :=
  [ glyph 2 2 1 "ayah" 550 600 40 60 I;
    glyph 2 1 1 "ayah" 700 730 10 28 I;
    glyph 2 1 2 "ayah" 731 760 12 30 I;
    glyph 2 1 3 "marker" 300 340 10 30 I;
    glyph 2 2 2 "ayah" 601 650 42 58 I;
    glyph 3 1 1 "ayah" 100 150 10 30 I ].

Definition sample_world : World :=
  {| store := Snapshot sample_words sample_glyphs;
     open_handles := [4%nat]; calls := [] |}.

(** One word on page 2, with the box of the click scenario. *)
Definition fixture_word : word_bounds.row :=
  word 2 2 1 1 "alif" 100 150 10 30 I.

Definition fixture_world : World :=
  {| store := Snapshot [word 1 1 1 1 "bismi" 90 160 5 40 I; fixture_word] [];
     open_handles := []; calls := [] |}.

Definition empty_world : World :=
  {| store := Empty; open_handles := []; calls := [] |}.

(** No database file at the path. *)
Definition missing_world : World :=
  {| store := Missing; open_handles := []; calls := [] |}.

(** The least integer that SQLite cannot hold. *)
Definition too_large : Z := 9223372036854775808.

(** A computation that leaves the store alone and never asks to exit. *)
Definition harmless {A} (m : IO A) : Prop :=
  ∀ w, store (m w).2 = store w ∧ ∀ c, (m w).1 ≠ Raise (SystemExit c).

(** The glyph counts of a layout, added up. *)
Definition total_count (lines : list example_usage.layout_row) : Z :=
  foldr (λ line n, layout_count line + n) 0 lines.

(** Page 2 with the word of the click scenario behind a wider one. *)
Definition crowded_world : World :=
  {| store := Snapshot [word 2 1 1 1 "bismi" 90 160 5 40 I; fixture_word] [];
     open_handles := []; calls := [] |}.

(** Two words of page 2 whose boxes overlap around (120, 20). *)
Definition overlap_world : World :=
  {| store := Snapshot [word 2 2 1 1 "alif" 100 150 10 30 I;
                        word 2 2 1 2 "lam" 110 170 15 35 I] [];
     open_handles := []; calls := [] |}.

(** What the explorer's [main] runs between connecting and closing. *)
Definition exploration (cursor : Connection) : IO unit :=
  try_except
    (explore_database.show_schema cursor;;
     explore_database.show_summary_stats cursor;;
     explore_database.show_sample_data cursor;;
     explore_database.show_page_stats cursor 2;;
     pending ← execute cursor (Select [] explore_database.select_first_word);
     match fetchone pending with
     | None => raise TypeError
     | Some first_word =>
         explore_database.find_word_positions cursor first_word
     end)
    (λ e, mret ()).

(** * Properties *)

(** ** Ordering *)

Lemma lex_leb_total k1 k2 : lex_leb k1 k2 = true ∨ lex_leb k2 k1 = true.
Proof.
  revert k2. induction k1 as [|a k1 IH]; intros [|b k2]; simpl; auto.
  destruct (IH k2) as [H|H]; rewrite H;
    destruct (Z.ltb_spec a b), (Z.ltb_spec b a), (Z.eqb_spec a b),
             (Z.eqb_spec b a); simpl; auto; lia.
Qed.

Lemma lex_leb_trans k1 k2 k3 :
  lex_leb k1 k2 = true → lex_leb k2 k3 = true → lex_leb k1 k3 = true.
Proof.
  revert k2 k3.
  induction k1 as [|a k1 IH]; intros [|b k2] [|c k3]; simpl; auto;
    try discriminate.
  intros H12 H23.
  apply orb_true_iff in H12 as [H12|H12], H23 as [H23|H23];
    rewrite ?andb_true_iff in *; apply orb_true_iff.
  - left. apply Z.ltb_lt. apply Z.ltb_lt in H12, H23. lia.
  - left. destruct H23 as [H23 _]. apply Z.ltb_lt.
    apply Z.ltb_lt in H12. apply Z.eqb_eq in H23. lia.
  - left. destruct H12 as [H12 _]. apply Z.ltb_lt.
    apply Z.ltb_lt in H23. apply Z.eqb_eq in H12. lia.
  - right. destruct H12 as [H12 H12'], H23 as [H23 H23'].
    apply Z.eqb_eq in H12, H23. rewrite andb_true_iff. split.
    + apply Z.eqb_eq. lia.
    + eauto.
Qed.

#[global] Instance key_le_total {A} (key : A → list Z) : Total (key_le key).
Proof. intros a b. apply lex_leb_total. Qed.

#[global] Instance key_le_trans {A} (key : A → list Z) :
  Transitive (key_le key).
Proof. intros a b c. apply lex_leb_trans. Qed.

Lemma order_by_perm {A} (key : A → list Z) rows :
  order_by key rows ≡ₚ rows.
Proof. apply merge_sort_Permutation. Qed.

Lemma order_by_sorted {A} (key : A → list Z) rows :
  StronglySorted (key_le key) (order_by key rows).
Proof. apply StronglySorted_merge_sort; apply _. Qed.

Lemma order_by_elem_of {A} (key : A → list Z) rows r :
  r ∈ order_by key rows ↔ r ∈ rows.
Proof. by rewrite order_by_perm. Qed.

Lemma order_by_nil {A} (key : A → list Z) : order_by key [] = [].
Proof. reflexivity. Qed.

(** Sortedness survives a projection that keeps the key columns. *)
Lemma StronglySorted_project {A B} (R : relation A) (S : relation B)
    (f : A → B) l :
  (∀ a b, R a b → S (f a) (f b)) →
  StronglySorted R l → StronglySorted S (f <$> l).
Proof.
  intros HRS. induction 1 as [|a l Hl IH Ha]; simpl; constructor; auto.
  apply Forall_fmap, Forall_forall. intros b Hb.
  rewrite Forall_forall in Ha. simpl. auto.
Qed.

Lemma lex_le_1 a b : lex_le [a] [b] ↔ a ≤ b.
Proof.
  unfold lex_le. simpl.
  destruct (Z.ltb_spec a b), (Z.eqb_spec a b); simpl; split; (lia || auto);
    discriminate.
Qed.

Lemma lex_le_cons a k1 b k2 :
  lex_le (a :: k1) (b :: k2) ↔ a < b ∨ (a = b ∧ lex_le k1 k2).
Proof.
  unfold lex_le. simpl.
  rewrite orb_true_iff, andb_true_iff, Z.ltb_lt, Z.eqb_eq. tauto.
Qed.

(** ** SQLite integers *)

Lemma int64b_int64 z : int64b z = true ↔ int64 z.
Proof.
  unfold int64b, int64. rewrite andb_true_iff, !Z.leb_le. tauto.
Qed.

Lemma int64b_too_large : int64b too_large = false.
Proof. reflexivity. Qed.

(** What is stored fits. *)
Lemma word_fits (r : word_bounds.row) :
  int64 (word_bounds.page_number r) ∧ int64 (word_bounds.sura_number r)
  ∧ int64 (word_bounds.ayah_number r) ∧ int64 (word_bounds.word_position r)
  ∧ int64 (word_bounds.min_x r) ∧ int64 (word_bounds.max_x r)
  ∧ int64 (word_bounds.min_y r) ∧ int64 (word_bounds.max_y r).
Proof.
  destruct r as [p s a wp t x0 x1 y0 y1 Hfits]. simpl in *.
  rewrite !andb_True in Hfits. rewrite !Is_true_true, !int64b_int64 in Hfits.
  tauto.
Qed.

Lemma glyph_fits (g : glyph_bounds.row) :
  int64 (glyph_bounds.page_number g) ∧ int64 (glyph_bounds.line_number g)
  ∧ int64 (glyph_bounds.line_position g)
  ∧ int64 (glyph_bounds.min_x g) ∧ int64 (glyph_bounds.max_x g)
  ∧ int64 (glyph_bounds.min_y g) ∧ int64 (glyph_bounds.max_y g).
Proof.
  destruct g as [p l lp t x0 x1 y0 y1 Hfits]. simpl in *.
  rewrite !andb_True in Hfits. rewrite !Is_true_true, !int64b_int64 in Hfits.
  tauto.
Qed.

(** A point inside a stored box, on a stored page, can be bound. *)
Lemma hit_fits page x y r :
  example_usage.hit page x y r → int64 page ∧ int64 x ∧ int64 y.
Proof.
  intros (Hp & Hx0 & Hx1 & Hy0 & Hy1).
  destruct (word_fits r) as (Fp & _ & _ & _ & Fx0 & Fx1 & Fy0 & Fy1).
  unfold int64 in *. subst page. lia.
Qed.

(** Discharges the binding of parameters known to fit. *)
Ltac bindable :=
  cbn [forallb bindable andb];
  repeat match goal with
         | H : int64 ?z |- context [int64b ?z] =>
             rewrite (proj2 (int64b_int64 z) H)
         end;
  reflexivity.

(** ** Running a lookup *)

Lemma fresh_handle_fresh (hs : list Connection) : fresh_handle hs ∉ hs.
Proof.
  intros Hin. apply max_list_elem_of_le in Hin. unfold fresh_handle in Hin.
  lia.
Qed.

Lemma filter_ne_fresh (h : Connection) (hs : list Connection) :
  h ∉ hs → filter (λ h', h' ≠ h) hs = hs.
Proof.
  induction hs as [|a hs IH]; [done|]. intros Hnot.
  rewrite not_elem_of_cons in Hnot. destruct Hnot as [Hne Hnot].
  rewrite filter_cons_True by congruence. by rewrite IH.
Qed.

Lemma close_fresh (hs : list Connection) :
  filter (λ h', h' ≠ fresh_handle hs) (fresh_handle hs :: hs) = hs.
Proof.
  rewrite filter_cons_False by (intros H; by apply H).
  apply filter_ne_fresh, fresh_handle_fresh.
Qed.

Lemma scoped_snapshot {R A} params (q : Query R) (fetch : list R → A)
    w ws gs :
  store w = Snapshot ws gs →
  forallb bindable params = true →
  scoped (Select params q) fetch w =
    (Return (fetch (q ws gs)),
     after [CallConnect; CallExecute (fresh_handle (open_handles w));
            CallClose (fresh_handle (open_handles w))] w).
Proof.
  destruct w as [st hs cs]. simpl. intros -> Hbind.
  unfold scoped, example_usage.connect_db, mbind, IO_bind, bind,
    sqlite3_connect, execute, close, called, after. simpl.
  rewrite decide_True by apply list_elem_of_here. simpl.
  rewrite Hbind. simpl.
  rewrite close_fresh. by rewrite <- !app_assoc.
Qed.

(** A parameter that does not fit: the statement is prepared, binding
    raises, and the connection is left open. *)
Lemma scoped_overflow {R A} params (q : Query R) (fetch : list R → A)
    w ws gs :
  store w = Snapshot ws gs →
  forallb bindable params = false →
  scoped (Select params q) fetch w =
    (Raise OverflowError,
     leaking (fresh_handle (open_handles w))
       [CallConnect; CallExecute (fresh_handle (open_handles w))] w).
Proof.
  destruct w as [st hs cs]. simpl. intros -> Hbind.
  unfold scoped, example_usage.connect_db, mbind, IO_bind, bind,
    sqlite3_connect, execute, called, leaking. simpl.
  rewrite decide_True by apply list_elem_of_here. simpl.
  rewrite Hbind. simpl. by rewrite <- !app_assoc.
Qed.

Lemma scoped_unopenable {R A} (stmt : Statement R) (fetch : list R → A) w :
  store w = Unopenable →
  scoped stmt fetch w = (Raise OperationalError, after [CallConnect] w).
Proof.
  destruct w as [st hs cs]. simpl. intros ->. reflexivity.
Qed.

Lemma scoped_not_a_database {R A} (stmt : Statement R)
    (fetch : list R → A) w :
  store w = NotADatabase →
  scoped stmt fetch w =
    (Raise DatabaseError,
     leaking (fresh_handle (open_handles w))
       [CallConnect; CallExecute (fresh_handle (open_handles w))] w).
Proof.
  destruct w as [st hs cs]. simpl. intros ->.
  unfold scoped, example_usage.connect_db, mbind, IO_bind, bind,
    sqlite3_connect, execute, called, leaking. simpl.
  rewrite decide_True by apply list_elem_of_here. simpl.
  by rewrite <- !app_assoc.
Qed.

Lemma scoped_empty {R A} (stmt : Statement R) (fetch : list R → A) w :
  store w = Empty →
  scoped stmt fetch w =
    (Raise OperationalError,
     leaking (fresh_handle (open_handles w))
       [CallConnect; CallExecute (fresh_handle (open_handles w))] w).
Proof.
  destruct w as [st hs cs]. simpl. intros ->.
  unfold scoped, example_usage.connect_db, mbind, IO_bind, bind,
    sqlite3_connect, execute, called, leaking. simpl.
  rewrite decide_True by apply list_elem_of_here. simpl.
  by rewrite <- !app_assoc.
Qed.

(** No file: connecting creates an empty database, in which the
    statement finds no table. *)
Lemma scoped_missing {R A} (stmt : Statement R) (fetch : list R → A) w :
  store w = Missing →
  scoped stmt fetch w =
    (Raise OperationalError,
     leaking (fresh_handle (open_handles w))
       [CallConnect; CallExecute (fresh_handle (open_handles w))] w).
Proof.
  destruct w as [st hs cs]. simpl. intros ->.
  unfold scoped, example_usage.connect_db, mbind, IO_bind, bind,
    sqlite3_connect, execute, called, leaking. simpl.
  rewrite decide_True by apply list_elem_of_here. simpl.
  by rewrite <- !app_assoc.
Qed.

(** A SELECT leaves at the path what connecting left there. *)
Lemma scoped_store {R A} params (q : Query R) (fetch : list R → A) w :
  store (scoped (Select params q) fetch w).2 = opened (store w).
Proof.
  destruct (store w) as [| | | |ws gs] eqn:Hs.
  - by rewrite scoped_unopenable.
  - rewrite scoped_missing by done. simpl. by rewrite Hs.
  - rewrite scoped_not_a_database by done. simpl. by rewrite Hs.
  - rewrite scoped_empty by done. simpl. by rewrite Hs.
  - destruct (forallb bindable params) eqn:Hbind.
    + by erewrite scoped_snapshot.
    + erewrite scoped_overflow by done. simpl. by rewrite Hs.
Qed.

(** Each lookup is an instance of the shape. *)
Lemma highlight_words_in_area_scoped x1 y1 x2 y2 page_num :
  example_usage.highlight_words_in_area x1 y1 x2 y2 page_num =
  scoped
    (Select [PInt (default 2 page_num); PInt x1; PInt x2; PInt y1; PInt y2]
       (example_usage.select_area (default 2 page_num) x1 x2 y1 y2))
    fetchall.
Proof. reflexivity. Qed.

Lemma get_ayah_words_scoped sura_num ayah_num :
  example_usage.get_ayah_words sura_num ayah_num =
  scoped (Select [PInt sura_num; PInt ayah_num]
            (example_usage.select_ayah sura_num ayah_num)) fetchall.
Proof. reflexivity. Qed.

Lemma find_word_occurrences_scoped arabic_word :
  example_usage.find_word_occurrences arabic_word =
  scoped (Select [PText arabic_word]
            (example_usage.select_occurrences arabic_word)) fetchall.
Proof. reflexivity. Qed.

Lemma get_page_layout_scoped page_num :
  example_usage.get_page_layout page_num =
  scoped (Select [PInt page_num] (example_usage.select_layout page_num))
    fetchall.
Proof. reflexivity. Qed.

Lemma word_click_handler_scoped x y page_num w :
  example_usage.word_click_handler x y page_num w =
  scoped (Select [PInt page_num; PInt x; PInt x; PInt y; PInt y]
            (example_usage.select_click page_num x y)) fetchone w.
Proof.
  unfold example_usage.word_click_handler, scoped, mbind, IO_bind, bind.
  destruct (example_usage.connect_db w) as [[conn|e] w1]; [|done].
  destruct (execute conn _ w1) as [[pending|e] w2]; [|done].
  destruct (close conn w2) as [[[]|e] w3]; [|done].
  by destruct (fetchone pending).
Qed.

Lemma filter_none {A} (P : A → Prop) `{∀ x, Decision (P x)} (l : list A) :
  (∀ x, x ∈ l → ¬ P x) → filter P l = [].
Proof.
  induction l as [|a l IH]; [done|]. intros Hno.
  rewrite filter_cons_False by (apply Hno; left).
  apply IH. intros x Hx. apply Hno. by right.
Qed.

(** ** Region lookup *)

Lemma reading_order_key r1 r2 :
  key_le (λ r, [word_bounds.min_y r; word_bounds.min_x r]) r1 r2 →
  reading_order (example_usage.area_columns r1) (example_usage.area_columns r2).
Proof.
  unfold key_le, reading_order. rewrite lex_le_cons, lex_le_1. simpl. tauto.
Qed.

(** C1, as the specification words it, fails: it speaks of every box, but
    a box with a coordinate that is no SQLite integer makes the lookup
    raise, here although the box is well formed and holds words of the
    page. *)
Lemma highlight_words_in_area_rejects_large_box :
  (∃ r, r ∈ sample_words ∧ example_usage.in_area 2 0 too_large 0 400 r)
  ∧ (example_usage.highlight_words_in_area 0 0 too_large 400 (Some 2)
       sample_world).1 = Raise OverflowError
  ∧ ¬ ∃ words,
        (example_usage.highlight_words_in_area 0 0 too_large 400 (Some 2)
           sample_world).1 = Return words.
Proof.
  split.
  { exists (word 2 2 2 4 "la" 300 340 10 30 I). split.
    - unfold sample_words. do 4 right. left.
    - vm_compute. intuition discriminate. }
  split; [vm_compute; reflexivity|].
  intros [words Hrun]. vm_compute in Hrun. discriminate.
Qed.

(** C1, amended.  On a store that holds the tables, for a page number and
    box coordinates that are SQLite integers, the region lookup returns
    normally, and its rows are exactly the rows (arabic_word, min_x,
    max_x, min_y, max_y, sura_number, ayah_number) of the records of
    that page whose box lies inside the query box, each once; a record
    of the page that sticks out to the right of the box is left out even
    when it starts inside; the rows come top to bottom, then left to
    right; and when no record qualifies the result is the empty list. *)
Theorem highlight_words_in_area_contained w ws gs x1 y1 x2 y2 page :
  store w = Snapshot ws gs →
  int64 page → int64 x1 → int64 y1 → int64 x2 → int64 y2 →
  ∃ words,
    example_usage.highlight_words_in_area x1 y1 x2 y2 (Some page) w =
      (Return words,
       after [CallConnect; CallExecute (fresh_handle (open_handles w));
              CallClose (fresh_handle (open_handles w))] w)
    ∧ words ≡ₚ
        (λ r, (word_bounds.arabic_word r,
               word_bounds.min_x r, word_bounds.max_x r,
               word_bounds.min_y r, word_bounds.max_y r,
               word_bounds.sura_number r, word_bounds.ayah_number r))
        <$> filter (λ r, word_bounds.page_number r = page
                         ∧ word_bounds.min_x r >= x1
                         ∧ word_bounds.max_x r <= x2
                         ∧ word_bounds.min_y r >= y1
                         ∧ word_bounds.max_y r <= y2) ws
    ∧ (∀ r, r ∈ ws → word_bounds.page_number r = page →
            word_bounds.max_x r > x2 →
            (word_bounds.arabic_word r,
             word_bounds.min_x r, word_bounds.max_x r,
             word_bounds.min_y r, word_bounds.max_y r,
             word_bounds.sura_number r, word_bounds.ayah_number r) ∉ words)
    ∧ StronglySorted reading_order words
    ∧ ((∀ r, r ∈ ws → ¬ example_usage.in_area page x1 x2 y1 y2 r) →
       words = []).
Proof.
  intros Hs Fp Fx1 Fy1 Fx2 Fy2. eexists. split.
  { rewrite highlight_words_in_area_scoped.
    apply scoped_snapshot; [done|]. simpl default. bindable. }
  unfold fetchall, example_usage.select_area. simpl.
  split; [|split; [|split]].
  - by rewrite order_by_perm.
  - intros r Hr Hpage Hmax Hrow.
    apply list_elem_of_fmap in Hrow as (r' & Heq & Hr').
    apply order_by_elem_of, list_elem_of_filter in Hr' as [Harea _].
    destruct Harea as (_ & _ & Hle & _).
    unfold example_usage.area_columns in Heq.
    assert (word_bounds.max_x r = word_bounds.max_x r') by congruence.
    lia.
  - eapply StronglySorted_project; [|apply order_by_sorted].
    apply reading_order_key.
  - intros Hnone. by rewrite filter_none.
Qed.

Lemma highlight_words_in_area_contained_witness :
  store sample_world = Snapshot sample_words sample_glyphs
  ∧ int64 2 ∧ int64 0 ∧ int64 0 ∧ int64 600 ∧ int64 400
  ∧ ∃ words,
      example_usage.highlight_words_in_area 0 0 600 400 (Some 2) sample_world =
        (Return words,
         after [CallConnect;
                CallExecute (fresh_handle (open_handles sample_world));
                CallClose (fresh_handle (open_handles sample_world))]
           sample_world)
      ∧ words ≡ₚ
          (λ r, (word_bounds.arabic_word r,
                 word_bounds.min_x r, word_bounds.max_x r,
                 word_bounds.min_y r, word_bounds.max_y r,
                 word_bounds.sura_number r, word_bounds.ayah_number r))
          <$> filter (λ r, word_bounds.page_number r = 2
                           ∧ word_bounds.min_x r >= 0
                           ∧ word_bounds.max_x r <= 600
                           ∧ word_bounds.min_y r >= 0
                           ∧ word_bounds.max_y r <= 400) sample_words
      ∧ (∀ r, r ∈ sample_words → word_bounds.page_number r = 2 →
              word_bounds.max_x r > 600 →
              (word_bounds.arabic_word r,
               word_bounds.min_x r, word_bounds.max_x r,
               word_bounds.min_y r, word_bounds.max_y r,
               word_bounds.sura_number r, word_bounds.ayah_number r)
              ∉ words)
      ∧ StronglySorted reading_order words
      ∧ ((∀ r, r ∈ sample_words →
               ¬ example_usage.in_area 2 0 600 0 400 r) →
         words = []).
Proof.
  split; [reflexivity|]. do 5 (split; [unfold int64; lia|]).
  apply (highlight_words_in_area_contained
           sample_world sample_words sample_glyphs 0 0 600 400 2);
    (reflexivity || (unfold int64; lia)).
Defined.

(** The rows of the run above: the word that reaches x = 650 is not among
    them, and the line at y = 10 precedes the line at y = 40. *)
Example highlight_words_in_area_sample :
  (example_usage.highlight_words_in_area 0 0 600 400 (Some 2) sample_world).1 =
  Return [("la", 300, 340, 10, 30, 2, 2); ("huda", 20, 90, 40, 60, 2, 2);
          ("dhalika", 100, 150, 40, 60, 2, 2)]%string.
Proof. vm_compute. reflexivity. Qed.

(** Outside the integers of SQLite the lookup raises, whatever the
    tables hold. *)
Lemma highlight_words_in_area_overflow w ws gs x1 y1 x2 y2 page :
  store w = Snapshot ws gs →
  ¬ (int64 page ∧ int64 x1 ∧ int64 y1 ∧ int64 x2 ∧ int64 y2) →
  (example_usage.highlight_words_in_area x1 y1 x2 y2 (Some page) w).1
  = Raise OverflowError.
Proof.
  intros Hs Hfit. rewrite highlight_words_in_area_scoped.
  erewrite scoped_overflow; [done|done|].
  simpl. apply not_true_is_false. intros Hb. apply Hfit.
  rewrite !andb_true_iff, !int64b_int64 in Hb. tauto.
Qed.

(** ** Click lookup *)

Lemma head_filter_Some {A} (P : A → Prop) `{∀ x, Decision (P x)}
    (l : list A) x :
  head (filter P l) = Some x → x ∈ l ∧ P x.
Proof.
  intros Hhead. apply head_Some_elem_of, list_elem_of_filter in Hhead. tauto.
Qed.

Lemma head_fmap {A B} (f : A → B) (l : list A) :
  head (f <$> l) = f <$> head l.
Proof. by destruct l. Qed.

Lemma word_click_handler_result w ws gs x y page :
  store w = Snapshot ws gs →
  int64 x → int64 y → int64 page →
  (example_usage.word_click_handler x y page w).1 =
  Return (fetchone (example_usage.select_click page x y ws gs)).
Proof.
  intros Hs Fx Fy Fp. rewrite word_click_handler_scoped.
  erewrite scoped_snapshot; [done|done|bindable].
Qed.

Lemma hit_box_contains page x y r :
  example_usage.hit page x y r ↔
  word_bounds.page_number r = page ∧ box_contains r x y.
Proof. unfold example_usage.hit, box_contains. lia. Qed.

(** C2, as the specification words it, fails twice.  A point that is no
    SQLite integer lies in no box, yet the lookup raises where the claim
    promises absence; and a word with the box x 100..150, y 10..30 on
    page 2 does not decide the two clicks of the scenario: with a wider
    word stored before it, the click at (125, 20) returns the wider word
    and the click at (99, 20) returns it too. *)
Lemma word_click_handler_scenario_fails :
  ((∀ r, r ∈ [word 1 1 1 1 "bismi" 90 160 5 40 I; fixture_word] →
         ¬ box_contains r too_large 20)
   ∧ (example_usage.word_click_handler too_large 20 2 fixture_world).1
     = Raise OverflowError)
  ∧ store crowded_world
    = Snapshot [word 2 1 1 1 "bismi" 90 160 5 40 I; fixture_word] []
  ∧ (example_usage.word_click_handler 125 20 2 crowded_world).1
    = Return (Some ("bismi"%string, 1, 1, 1, 90, 160, 5, 40))
  ∧ (example_usage.word_click_handler 99 20 2 crowded_world).1
    = Return (Some ("bismi"%string, 1, 1, 1, 90, 160, 5, 40)).
Proof.
  split; [split|].
  - intros r Hr [[_ Hx] _].
    destruct (word_fits r) as (_ & _ & _ & _ & _ & Fx1 & _).
    unfold int64, too_large in *. lia.
  - vm_compute. reflexivity.
  - repeat split; vm_compute; reflexivity.
Qed.

(** C2, amended.  On a store that holds the tables, for a point and a
    page number that are SQLite integers, the click lookup returns
    normally.  A row it returns is the row (arabic_word, sura_number,
    ayah_number, word_position, min_x, max_x, min_y, max_y) of a record
    of the given page whose box contains the point, borders included,
    and it returns nothing exactly when no record of the page contains
    the point.  For a word of page 2 with the box x 100..150, y 10..30:
    a click at (125, 20) on page 2 returns that word when no other word
    of the page contains the point, and a click at (99, 20) returns
    nothing when no other word of the page contains that point. *)
Theorem word_click_handler_hit w ws gs :
  store w = Snapshot ws gs →
  (∀ x y page,
     int64 x → int64 y → int64 page →
     ∃ found,
       example_usage.word_click_handler x y page w =
         (Return found,
          after [CallConnect; CallExecute (fresh_handle (open_handles w));
                 CallClose (fresh_handle (open_handles w))] w)
       ∧ (∀ row, found = Some row →
            ∃ r, r ∈ ws
                 ∧ row = (word_bounds.arabic_word r,
                          word_bounds.sura_number r,
                          word_bounds.ayah_number r,
                          word_bounds.word_position r,
                          word_bounds.min_x r, word_bounds.max_x r,
                          word_bounds.min_y r, word_bounds.max_y r)
                 ∧ word_bounds.page_number r = page
                 ∧ word_bounds.min_x r ≤ x ≤ word_bounds.max_x r
                 ∧ word_bounds.min_y r ≤ y ≤ word_bounds.max_y r)
       ∧ (found = None ↔
            ∀ r, r ∈ ws → word_bounds.page_number r = page →
                 ¬ (word_bounds.min_x r ≤ x ≤ word_bounds.max_x r
                    ∧ word_bounds.min_y r ≤ y ≤ word_bounds.max_y r)))
  ∧ (∀ r,
       r ∈ ws → word_bounds.page_number r = 2 →
       word_bounds.min_x r = 100 → word_bounds.max_x r = 150 →
       word_bounds.min_y r = 10 → word_bounds.max_y r = 30 →
       ((∀ r', r' ∈ ws → word_bounds.page_number r' = 2 →
               box_contains r' 125 20 → r' = r) →
        (example_usage.word_click_handler 125 20 2 w).1 =
          Return (Some (word_bounds.arabic_word r,
                        word_bounds.sura_number r,
                        word_bounds.ayah_number r,
                        word_bounds.word_position r,
                        100, 150, 10, 30)))
       ∧ ((∀ r', r' ∈ ws → word_bounds.page_number r' = 2 →
                 r' ≠ r → ¬ box_contains r' 99 20) →
          (example_usage.word_click_handler 99 20 2 w).1 = Return None)).
Proof.
  intros Hs. split.
  - intros x y page Fx Fy Fp. eexists. split.
    { rewrite word_click_handler_scoped.
      apply scoped_snapshot; [done|bindable]. }
    unfold fetchone, example_usage.select_click. split.
    + intros row Hrow. rewrite head_fmap in Hrow.
      apply fmap_Some in Hrow as (r & Hhead & ->).
      apply head_filter_Some in Hhead as [Hin Hhit].
      exists r. unfold example_usage.hit in Hhit. repeat split; (done || lia).
    + rewrite head_fmap, fmap_None, head_None. split.
      * intros Hnil r Hr Hpage Hbox.
        eapply filter_nil_not_elem_of; [exact Hnil| |exact Hr].
        unfold example_usage.hit. lia.
      * intros Hnone. apply filter_none. intros r Hr Hhit.
        unfold example_usage.hit in Hhit. apply (Hnone r Hr); lia.
  - intros r Hr Hpage Hx0 Hx1 Hy0 Hy1.
    assert (int64 125 ∧ int64 99 ∧ int64 20 ∧ int64 2)
      as (F1 & F2 & F3 & F4) by (unfold int64; lia).
    rewrite !(word_click_handler_result _ _ _ _ _ _ Hs) by done.
    unfold fetchone, example_usage.select_click. rewrite !head_fmap. split.
    + intros Honly.
      destruct (head (filter (example_usage.hit 2 125 20) ws)) as [r'|]
        eqn:Hhead.
      * apply head_filter_Some in Hhead as [Hr' Hhit].
        apply hit_box_contains in Hhit as [Hp' Hbox].
        rewrite (Honly r' Hr' Hp' Hbox). cbn [fmap option_fmap option_map].
        unfold example_usage.click_columns.
        by rewrite Hx0, Hx1, Hy0, Hy1.
      * apply head_None in Hhead.
        exfalso. eapply filter_nil_not_elem_of; [exact Hhead| |exact Hr].
        unfold example_usage.hit. lia.
    + intros Hothers.
      rewrite filter_none; [done|]. intros r' Hr' Hhit.
      apply hit_box_contains in Hhit as [Hp' Hbox].
      apply (Hothers r' Hr' Hp'); [|done].
      intros ->. unfold box_contains in Hbox. lia.
Qed.

Lemma word_click_handler_hit_witness :
  store fixture_world
    = Snapshot [word 1 1 1 1 "bismi" 90 160 5 40 I; fixture_word] []
  ∧ (example_usage.word_click_handler 125 20 2 fixture_world).1 =
      Return (Some ("alif"%string, 2, 1, 1, 100, 150, 10, 30))
  ∧ (example_usage.word_click_handler 99 20 2 fixture_world).1 = Return None.
Proof.
  split; [reflexivity|].
  destruct (word_click_handler_hit fixture_world
              [word 1 1 1 1 "bismi" 90 160 5 40 I; fixture_word] [] eq_refl)
    as [_ Hscenario].
  destruct (Hscenario fixture_word) as [Hhit Hmiss];
    try reflexivity; [by right; left|].
  split.
  - apply Hhit. intros r' Hr' Hpage _.
    apply elem_of_cons in Hr' as [->|Hr']; [discriminate|].
    by apply list_elem_of_singleton in Hr'.
  - apply Hmiss. intros r' Hr' Hpage Hne.
    apply elem_of_cons in Hr' as [->|Hr']; [discriminate|].
    by apply list_elem_of_singleton in Hr'.
Defined.

(** ** A box given the wrong way round *)

(** C3, as the specification words it, fails: a region lookup whose box
    has its left edge right of its right edge returns normally. *)
Lemma highlight_words_in_area_accepts_inverted_box :
  600 > 0
  ∧ ¬ raises (example_usage.highlight_words_in_area 600 0 0 400 (Some 2))
        sample_world
  ∧ (example_usage.highlight_words_in_area 600 0 0 400 (Some 2)
       sample_world).1 = Return [].
Proof.
  split; [lia|]. split; [|vm_compute; reflexivity].
  intros (e & w' & Hrun).
  apply (f_equal fst) in Hrun. vm_compute in Hrun. discriminate.
Qed.

(** C3, amended.  The region lookup does not examine its box: on a store
    that holds the tables, a box with min > max whose coordinates are
    SQLite integers is queried like any other and a normal result comes
    back, which is the empty list when every stored record has
    min_x ≤ max_x and min_y ≤ max_y. *)
Theorem highlight_words_in_area_inverted_box w ws gs x1 y1 x2 y2 page :
  store w = Snapshot ws gs →
  int64 page → int64 x1 → int64 y1 → int64 x2 → int64 y2 →
  x1 > x2 ∨ y1 > y2 →
  ∃ words,
    example_usage.highlight_words_in_area x1 y1 x2 y2 (Some page) w =
      (Return words,
       after [CallConnect; CallExecute (fresh_handle (open_handles w));
              CallClose (fresh_handle (open_handles w))] w)
    ∧ ((∀ r, r ∈ ws → well_formed r) → words = []).
Proof.
  intros Hs Fp Fx1 Fy1 Fx2 Fy2 Hbox. eexists. split.
  { rewrite highlight_words_in_area_scoped.
    apply scoped_snapshot; [done|]. simpl default. bindable. }
  intros Hwf. unfold fetchall, example_usage.select_area. simpl.
  rewrite filter_none; [done|].
  intros r Hr Harea. destruct (Hwf r Hr) as [Hx Hy].
  unfold example_usage.in_area in Harea. lia.
Qed.

Lemma highlight_words_in_area_inverted_box_witness :
  store sample_world = Snapshot sample_words sample_glyphs
  ∧ int64 2 ∧ int64 600 ∧ int64 0 ∧ int64 0 ∧ int64 400
  ∧ (600 > 0 ∨ 0 > 400)
  ∧ ∃ words,
      example_usage.highlight_words_in_area 600 0 0 400 (Some 2) sample_world =
        (Return words,
         after [CallConnect;
                CallExecute (fresh_handle (open_handles sample_world));
                CallClose (fresh_handle (open_handles sample_world))]
           sample_world)
      ∧ ((∀ r, r ∈ sample_words → well_formed r) → words = []).
Proof.
  split; [reflexivity|]. do 5 (split; [unfold int64; lia|]).
  split; [left; lia|].
  apply (highlight_words_in_area_inverted_box
           sample_world sample_words sample_glyphs 600 0 0 400 2);
    (reflexivity || (unfold int64; lia)).
Defined.

(** ** A store that cannot be read *)

Lemma scoped_unavailable {R A} (stmt : Statement R) (fetch : list R → A) w :
  unavailable (store w) → fails_unavailable (scoped stmt fetch) w.
Proof.
  intros [Hs|[Hs|[Hs|Hs]]]; unfold fails_unavailable.
  - rewrite (scoped_unopenable _ _ _ Hs). do 2 eexists.
    split; [done|]. split; [by left|]. split; [simpl; by rewrite Hs|].
    exists []. split; [done|]. apply not_elem_of_nil.
  - rewrite (scoped_not_a_database _ _ _ Hs). do 2 eexists.
    split; [done|]. split; [by right|]. split; [done|].
    eexists. split; [done|]. by intros ?%list_elem_of_singleton.
  - rewrite (scoped_empty _ _ _ Hs). do 2 eexists.
    split; [done|]. split; [by left|]. split; [done|].
    eexists. split; [done|]. by intros ?%list_elem_of_singleton.
  - rewrite (scoped_missing _ _ _ Hs). do 2 eexists.
    split; [done|]. split; [by left|]. split; [done|].
    eexists. split; [done|]. by intros ?%list_elem_of_singleton.
Qed.

Lemma fails_unavailable_ext {A} (m1 m2 : IO A) w :
  m1 w = m2 w → fails_unavailable m2 w → fails_unavailable m1 w.
Proof. unfold fails_unavailable. by intros ->. Qed.

(** C4.  Where the database cannot be opened, is not a database, lacks
    the tables or is missing (SQLite then starts an empty one), each of
    the five lookups fails: an sqlite3 error reaches the caller in place
    of any rows, after a single connection attempt, and the store is left
    as it was, but for the empty database started where none was. *)
Theorem lookups_fail_on_unavailable_store
    w x1 y1 x2 y2 page_num sura_num ayah_num arabic_word x y page :
  unavailable (store w) →
  fails_unavailable
    (example_usage.highlight_words_in_area x1 y1 x2 y2 page_num) w
  ∧ fails_unavailable (example_usage.get_ayah_words sura_num ayah_num) w
  ∧ fails_unavailable (example_usage.find_word_occurrences arabic_word) w
  ∧ fails_unavailable (example_usage.get_page_layout page) w
  ∧ fails_unavailable (example_usage.word_click_handler x y page) w.
Proof.
  intros Hs. repeat split.
  - rewrite highlight_words_in_area_scoped. by apply scoped_unavailable.
  - rewrite get_ayah_words_scoped. by apply scoped_unavailable.
  - rewrite find_word_occurrences_scoped. by apply scoped_unavailable.
  - rewrite get_page_layout_scoped. by apply scoped_unavailable.
  - eapply fails_unavailable_ext; [apply word_click_handler_scoped|].
    by apply scoped_unavailable.
Qed.

Lemma lookups_fail_on_unavailable_store_witness :
  unavailable (store empty_world)
  ∧ fails_unavailable
      (example_usage.highlight_words_in_area 0 0 600 400 (Some 2)) empty_world
  ∧ fails_unavailable (example_usage.get_ayah_words 2 1) empty_world
  ∧ fails_unavailable (example_usage.find_word_occurrences "kitab")
      empty_world
  ∧ fails_unavailable (example_usage.get_page_layout 2) empty_world
  ∧ fails_unavailable (example_usage.word_click_handler 850 400 2)
      empty_world.
Proof.
  split; [right; right; left; reflexivity|].
  apply (lookups_fail_on_unavailable_store
           empty_world 0 0 600 400 (Some 2) 2 1 "kitab" 850 400 2).
  right. right. left. reflexivity.
Defined.

(** The same where no file exists: the lookup fails after creating an
    empty database at the path. *)
Example lookups_fail_on_missing_store :
  fails_unavailable (example_usage.get_ayah_words 2 1) missing_world
  ∧ store (example_usage.get_ayah_words 2 1 missing_world).2 = Empty.
Proof.
  split; [|reflexivity].
  rewrite get_ayah_words_scoped. apply scoped_unavailable.
  do 3 right. reflexivity.
Qed.

(** The explorer's own [connect_db] turns the failure into [None], on
    which its [main] exits with status 1. *)
Lemma explore_connect_db_unopenable w :
  store w = Unopenable →
  explore_database.connect_db w = (Return None, after [CallConnect] w)
  ∧ explore_database.main w = (Raise (SystemExit 1), after [CallConnect] w).
Proof.
  destruct w as [st hs cs]. simpl. intros ->. split; reflexivity.
Qed.

(** ** Occurrences of a word *)





(** The explorer's word search runs the same statement. *)
Lemma select_positions_select_occurrences arabic_word :
  explore_database.select_positions arabic_word =
  example_usage.select_occurrences arabic_word.
Proof. reflexivity. Qed.

(** ** Words of an ayah *)

Lemma word_position_key r1 r2 :
  key_le (λ r, [word_bounds.word_position r]) r1 r2 →
  ayah_word_position (example_usage.ayah_columns r1)
  ≤ ayah_word_position (example_usage.ayah_columns r2).
Proof. unfold key_le. by rewrite lex_le_1. Qed.

(** C7, as the specification words it, fails: it speaks of every pair
    (sura, ayah), but a sura number that is no SQLite integer makes the
    lookup raise where the claim promises the (empty) list of its
    words. *)
Lemma get_ayah_words_rejects_large_sura :
  (∀ r, r ∈ sample_words → word_bounds.sura_number r ≠ too_large)
  ∧ (example_usage.get_ayah_words too_large 1 sample_world).1
    = Raise OverflowError
  ∧ ¬ ∃ words,
        (example_usage.get_ayah_words too_large 1 sample_world).1
        = Return words.
Proof.
  split.
  { intros r _ Heq. destruct (word_fits r) as (_ & Fs & _).
    unfold int64, too_large in *. lia. }
  split; [vm_compute; reflexivity|].
  intros [words Hrun]. vm_compute in Hrun. discriminate.
Qed.

(** C7, amended.  On a store that holds the tables, for a sura and an
    ayah number that are SQLite integers, the ayah lookup returns the
    rows (arabic_word, word_position, min_x, max_x, min_y, max_y,
    page_number) of all records of that sura and ayah, each once, in
    ascending order of word position; nothing is assumed about the
    positions being consecutive. *)
Theorem get_ayah_words_all_ordered w ws gs sura_num ayah_num :
  store w = Snapshot ws gs →
  int64 sura_num → int64 ayah_num →
  ∃ words,
    example_usage.get_ayah_words sura_num ayah_num w =
      (Return words,
       after [CallConnect; CallExecute (fresh_handle (open_handles w));
              CallClose (fresh_handle (open_handles w))] w)
    ∧ words ≡ₚ
        (λ r, (word_bounds.arabic_word r, word_bounds.word_position r,
               word_bounds.min_x r, word_bounds.max_x r,
               word_bounds.min_y r, word_bounds.max_y r,
               word_bounds.page_number r))
        <$> filter (λ r, word_bounds.sura_number r = sura_num
                         ∧ word_bounds.ayah_number r = ayah_num) ws
    ∧ StronglySorted
        (λ a b, ayah_word_position a ≤ ayah_word_position b) words.
Proof.
  intros Hs Fs Fa. eexists. split.
  { rewrite get_ayah_words_scoped. apply scoped_snapshot; [done|bindable]. }
  unfold fetchall, example_usage.select_ayah. split.
  - by rewrite order_by_perm.
  - eapply StronglySorted_project; [|apply order_by_sorted].
    apply word_position_key.
Qed.

Lemma get_ayah_words_all_ordered_witness :
  store sample_world = Snapshot sample_words sample_glyphs
  ∧ int64 2 ∧ int64 2
  ∧ (example_usage.get_ayah_words 2 2 sample_world).1 =
      Return [("dhalika", 1, 100, 150, 40, 60, 2);
              ("kitab", 3, 550, 650, 40, 60, 2);
              ("la", 4, 300, 340, 10, 30, 2);
              ("huda", 7, 20, 90, 40, 60, 2)]%string
  ∧ ∃ words,
      example_usage.get_ayah_words 2 2 sample_world =
        (Return words,
         after [CallConnect;
                CallExecute (fresh_handle (open_handles sample_world));
                CallClose (fresh_handle (open_handles sample_world))]
           sample_world)
      ∧ words ≡ₚ
          (λ r, (word_bounds.arabic_word r, word_bounds.word_position r,
                 word_bounds.min_x r, word_bounds.max_x r,
                 word_bounds.min_y r, word_bounds.max_y r,
                 word_bounds.page_number r))
          <$> filter (λ r, word_bounds.sura_number r = 2
                           ∧ word_bounds.ayah_number r = 2) sample_words
      ∧ StronglySorted
          (λ a b, ayah_word_position a ≤ ayah_word_position b) words.
Proof.
  split; [reflexivity|]. do 2 (split; [unfold int64; lia|]).
  split; [vm_compute; reflexivity|].
  apply (get_ayah_words_all_ordered
           sample_world sample_words sample_glyphs 2 2);
    (reflexivity || (unfold int64; lia)).
Defined.

(** ** What the lookups do to the store *)

(** C8, as the specification words it, fails: where there is no database
    file, a lookup leaves an empty database behind, because connecting
    creates it. *)
Lemma lookups_create_missing_store :
  store missing_world = Missing
  ∧ store (example_usage.highlight_words_in_area 0 0 600 400 (Some 2)
             missing_world).2 = Empty
  ∧ store (example_usage.get_ayah_words 2 1 missing_world).2 = Empty
  ∧ store (example_usage.find_word_occurrences "kitab" missing_world).2
    = Empty
  ∧ store (example_usage.get_page_layout 2 missing_world).2 = Empty
  ∧ store (example_usage.word_click_handler 850 400 2 missing_world).2
    = Empty
  ∧ Empty ≠ Missing.
Proof. repeat split; try reflexivity. discriminate. Qed.

(** C8, amended.  Whatever the store and the arguments, and whether it
    returns or raises, each of the five lookups leaves at the path what
    connecting leaves there: the store as it was, but for the empty
    database created where no file existed.  The tables of a database
    that exists are never changed. *)
Theorem lookups_leave_store_unchanged
    w x1 y1 x2 y2 page_num sura_num ayah_num arabic_word x y page :
  store (example_usage.highlight_words_in_area x1 y1 x2 y2 page_num w).2
    = opened (store w)
  ∧ store (example_usage.get_ayah_words sura_num ayah_num w).2
    = opened (store w)
  ∧ store (example_usage.find_word_occurrences arabic_word w).2
    = opened (store w)
  ∧ store (example_usage.get_page_layout page w).2 = opened (store w)
  ∧ store (example_usage.word_click_handler x y page w).2
    = opened (store w)
  ∧ (store w ≠ Missing → opened (store w) = store w)
  ∧ (store w = Missing → opened (store w) = Empty).
Proof.
  rewrite highlight_words_in_area_scoped, get_ayah_words_scoped,
    find_word_occurrences_scoped, get_page_layout_scoped,
    word_click_handler_scoped.
  repeat split; try apply scoped_store.
  - by destruct (store w).
  - by intros ->.
Qed.

(** That the store stays is owed to the statements being SELECTs: the
    same round of connect, execute, close with a statement that rewrites
    the tables changes the store. *)
Example scoped_modify_changes_store :
  store (scoped (Modify [] (λ _, ([], []))) (fetchall (R:=unit))
           sample_world).2
  = Snapshot [] [].
Proof. reflexivity. Qed.

(** ** The default page *)

(** C10.  Called without a page, the region lookup queries page 2. *)
Theorem highlight_words_in_area_default_page x1 y1 x2 y2 w :
  example_usage.highlight_words_in_area x1 y1 x2 y2 None w =
  example_usage.highlight_words_in_area x1 y1 x2 y2 (Some 2) w.
Proof. reflexivity. Qed.

(** ** Closing the connection *)

Lemma keeps_handles_ret {A} (a : A) : keeps_handles (mret a).
Proof. by intros w. Qed.

Lemma keeps_handles_raise {A} e : keeps_handles (raise (A:=A) e).
Proof. by intros w. Qed.

Lemma keeps_handles_bind {A B} (m : IO A) (k : A → IO B) :
  keeps_handles m → (∀ a, keeps_handles (k a)) → keeps_handles (m ≫= k).
Proof.
  intros Hm Hk w. unfold mbind, IO_bind, bind.
  specialize (Hm w). destruct (m w) as [[a|e] w1]; simpl in *.
  - by rewrite Hk.
  - done.
Qed.

Lemma keeps_handles_execute {R} conn (stmt : Statement R) :
  keeps_handles (execute conn stmt).
Proof.
  intros w. unfold execute.
  destruct (decide _); [destruct (store _)|]; try reflexivity.
  destruct (forallb _ _); [destruct stmt|]; reflexivity.
Qed.

Lemma keeps_handles_execute_catalog {R} conn (q : list string → list R) :
  keeps_handles (execute_catalog conn q).
Proof.
  intros w. unfold execute_catalog.
  destruct (decide _); [destruct (store _)|]; reflexivity.
Qed.

Lemma keeps_handles_try_except {A} (body : IO A) handler :
  keeps_handles body → (∀ e, keeps_handles (handler e)) →
  keeps_handles (try_except body handler).
Proof.
  intros Hb Hh w. unfold try_except. specialize (Hb w).
  destruct (body w) as [[a|[]] w1]; simpl in *; try done; by rewrite Hh.
Qed.

Lemma keeps_handles_for_each {A} (xs : list A) (body : A → IO unit) :
  (∀ x, keeps_handles (body x)) →
  keeps_handles (explore_database.for_each xs body).
Proof.
  intros Hb. induction xs as [|x xs IH]; simpl.
  - apply keeps_handles_ret.
  - apply keeps_handles_bind; auto.
Qed.

Create HintDb handles.

#[local] Hint Resolve keeps_handles_ret keeps_handles_raise
  keeps_handles_execute keeps_handles_execute_catalog : handles.

Ltac keeps_handles :=
  repeat first
    [ apply keeps_handles_bind; [|intros ?]
    | apply keeps_handles_for_each; intros ?
    | apply keeps_handles_try_except; [|intros ?]
    | solve [auto with handles] ].

Lemma keeps_handles_exploration cursor :
  keeps_handles
    (try_except
       (explore_database.show_schema cursor;;
        explore_database.show_summary_stats cursor;;
        explore_database.show_sample_data cursor;;
        explore_database.show_page_stats cursor 2;;
        pending ← execute cursor
                    (Select [] explore_database.select_first_word);
        match fetchone pending with
        | None => raise TypeError
        | Some first_word =>
            explore_database.find_word_positions cursor first_word
        end)
       (λ e, mret ())).
Proof.
  unfold explore_database.show_schema, explore_database.show_summary_stats,
    explore_database.show_sample_data, explore_database.show_page_stats,
    explore_database.find_word_positions.
  keeps_handles.
  destruct (fetchone _); keeps_handles.
Qed.

Lemma try_finally_close {A} (body : IO A) conn w :
  keeps_handles body →
  open_handles (try_finally body (close conn) w).2 =
  filter (λ h, h ≠ conn) (open_handles w).
Proof.
  intros Hb. unfold try_finally. specialize (Hb w).
  destruct (body w) as [[a|e] w1]; simpl in *; by rewrite Hb.
Qed.

(** The explorer closes its connection on every path: its exploration
    runs inside [try ... finally: conn.close()]. *)
Lemma explore_main_closes w :
  open_handles (explore_database.main w).2 = open_handles w.
Proof.
  destruct (store w) eqn:Hs.
  { by rewrite (proj2 (explore_connect_db_unopenable w Hs)). }
  all: unfold explore_database.main, explore_database.connect_db;
    unfold mbind at 1; unfold IO_bind, bind, try_except;
    unfold mbind at 1; unfold IO_bind, bind, sqlite3_connect;
    simpl; rewrite Hs; simpl;
    rewrite try_finally_close by apply keeps_handles_exploration;
    simpl; apply close_fresh.
Qed.

(** On the path without error the lookups close theirs too. *)
Lemma scoped_closes {R A} params (q : Query R) (fetch : list R → A)
    w ws gs :
  store w = Snapshot ws gs →
  forallb bindable params = true →
  open_handles (scoped (Select params q) fetch w).2 = open_handles w.
Proof. intros Hs Hb. by rewrite (scoped_snapshot _ _ _ _ _ _ Hs Hb). Qed.

(** C9 fails in [example_usage.py].  On a database without the tables the
    region lookup connects, the statement raises, and the error leaves
    the function past its [conn.close()]: connection 1 is still open. *)
Theorem highlight_words_in_area_leaves_connection_open :
  example_usage.highlight_words_in_area 0 0 600 400 (Some 2) empty_world =
    (Raise OperationalError,
     {| store := Empty; open_handles := [1%nat];
        calls := [CallConnect; CallExecute 1%nat] |})
  ∧ open_handles empty_world = [].
Proof. split; reflexivity. Qed.

(** The same on every store that opens but cannot be read, for any
    lookup of the shape. *)
Lemma scoped_leaves_connection_open {R A} (stmt : Statement R)
    (fetch : list R → A) w :
  store w = Empty ∨ store w = NotADatabase →
  raises (scoped stmt fetch) w
  ∧ open_handles (scoped stmt fetch w).2
    = fresh_handle (open_handles w) :: open_handles w.
Proof.
  unfold raises. intros [Hs|Hs].
  - rewrite (scoped_empty _ _ _ Hs). split; [|done]. by do 2 eexists.
  - rewrite (scoped_not_a_database _ _ _ Hs). split; [|done]. by do 2 eexists.
Qed.

(** The connection is likewise left open when a parameter cannot be
    bound, and when the database had to be created. *)
Example highlight_words_in_area_leaks_elsewhere :
  open_handles
    (example_usage.highlight_words_in_area 0 0 too_large 400 (Some 2)
       fixture_world).2 = [1%nat]
  ∧ open_handles
      (example_usage.highlight_words_in_area 0 0 600 400 (Some 2)
         missing_world).2 = [1%nat].
Proof. split; reflexivity. Qed.

(** ** Aggregates and groups *)

Lemma sql_min_least {A} (col : A → Z) r rest :
  least col (r :: rest) (sql_min col r rest).
Proof.
  unfold least, sql_min. induction rest as [|x rest [[r0 [Hin Heq]] Hle]];
    simpl.
  - split; [exists r; split; [left|done]|].
    intros r' Hr'. apply list_elem_of_singleton in Hr'. subst. lia.
  - split.
    + destruct (Z.min_spec (col x)
                  (foldr (λ x m, Z.min (col x) m) (col r) rest))
        as [[_ ->]|[_ ->]].
      * exists x. split; [right; left|done].
      * exists r0. split; [|done].
        apply elem_of_cons in Hin as [->|Hin]; [left|by do 2 right].
    + intros r' Hr'. apply elem_of_cons in Hr' as [->|Hr'].
      * specialize (Hle r ltac:(left)). lia.
      * apply elem_of_cons in Hr' as [->|Hr']; [lia|].
        specialize (Hle r' ltac:(by right)). lia.
Qed.

Lemma sql_max_greatest {A} (col : A → Z) r rest :
  greatest col (r :: rest) (sql_max col r rest).
Proof.
  unfold greatest, sql_max. induction rest as [|x rest [[r0 [Hin Heq]] Hle]];
    simpl.
  - split; [exists r; split; [left|done]|].
    intros r' Hr'. apply list_elem_of_singleton in Hr'. subst. lia.
  - split.
    + destruct (Z.max_spec (col x)
                  (foldr (λ x m, Z.max (col x) m) (col r) rest))
        as [[_ ->]|[_ ->]].
      * exists r0. split; [|done].
        apply elem_of_cons in Hin as [->|Hin]; [left|by do 2 right].
      * exists x. split; [right; left|done].
    + intros r' Hr'. apply elem_of_cons in Hr' as [->|Hr'].
      * specialize (Hle r ltac:(left)). lia.
      * apply elem_of_cons in Hr' as [->|Hr']; [lia|].
        specialize (Hle r' ltac:(by right)). lia.
Qed.

Section group_by.
Context {A K : Type} `{EqDecision K} (key : A → K).

Lemma group_insert_keys r (groups : list (group K A)) :
  (group_insert key r groups).*1 =
  if decide (key r ∈ groups.*1) then groups.*1 else groups.*1 ++ [key r].
Proof.
  induction groups as [|[k [r0 rest]] groups IH]; csimpl.
  - done.
  - destruct (decide (key r = k)) as [->|Hne]; csimpl.
    + rewrite decide_True; [done|left].
    + rewrite IH. destruct (decide (key r ∈ groups.*1)) as [Hin|Hnot].
      * rewrite decide_True; [done|by right].
      * rewrite decide_False; [done|].
        rewrite not_elem_of_cons. done.
Qed.

Lemma group_insert_elem r (groups : list (group K A)) g :
  NoDup (groups.*1) →
  g ∈ group_insert key r groups →
  (g.1 ≠ key r ∧ g ∈ groups)
  ∨ (g.1 = key r
     ∧ ((∃ g0, g0 ∈ groups ∧ g0.1 = key r
               ∧ members g = r :: members g0)
        ∨ ((key r ∉ groups.*1) ∧ members g = [r]))).
Proof.
  revert g. induction groups as [|[k [r0 rest]] groups IH]; csimpl; intros g.
  - intros _ ->%list_elem_of_singleton. right. split; [done|]. right.
    split; [apply not_elem_of_nil|done].
  - intros [Hk Hnd]%list.NoDup_cons.
    destruct (decide (key r = k)) as [<-|Hne].
    + intros [->|Hg]%elem_of_cons.
      * right. split; [done|]. left.
        exists (key r, (r0, rest)). split; [left|done].
      * left. split; [|by right].
        intros Heq. apply Hk. rewrite <- Heq.
        by apply list_elem_of_fmap_2.
    + intros [->|Hg]%elem_of_cons.
      * left. split; [simpl; congruence|left].
      * destruct (IH g Hnd Hg)
          as [[Hne' Hin]|[Heq [(g0 & Hg0 & Hk0 & Hm)|[Hnot Hm]]]].
        -- left. split; [done|by right].
        -- right. split; [done|]. left. exists g0. split; [by right|done].
        -- right. split; [done|]. right. split; [|done].
           rewrite not_elem_of_cons. split; [congruence|done].
Qed.

Lemma group_by_keys (rows : list A) :
  NoDup (group_by key rows).*1
  ∧ ∀ r, r ∈ rows → key r ∈ (group_by key rows).*1.
Proof.
  induction rows as [|r rows [IHnd IHin]]; csimpl.
  - split; [constructor|]. by intros r ?%not_elem_of_nil.
  - rewrite group_insert_keys.
    destruct (decide (key r ∈ (group_by key rows).*1)) as [Hin|Hnot].
    + split; [done|]. intros r' [->|Hr']%elem_of_cons; auto.
    + split.
      * apply list.NoDup_app. split; [done|]. split; [|apply list.NoDup_singleton].
        intros k Hk ->%list_elem_of_singleton. done.
      * intros r' [->|Hr']%elem_of_cons; apply elem_of_app.
        -- right. by apply list_elem_of_singleton.
        -- left. auto.
Qed.

Lemma group_by_members (rows : list A) g :
  g ∈ group_by key rows →
  members g = filter (λ r, key r = g.1) rows.
Proof.
  revert g. induction rows as [|r rows IH]; csimpl; intros g Hg.
  - by apply not_elem_of_nil in Hg.
  - destruct (group_by_keys rows) as [Hnd Hin].
    apply group_insert_elem in Hg
      as [[Hne Hg]|[Heq [(g0 & Hg0 & Hk0 & Hm)|[Hnot Hm]]]]; [| | |done].
    + rewrite filter_cons_False by congruence. by apply IH.
    + rewrite filter_cons_True by congruence.
      rewrite Hm, (IH g0 Hg0). by rewrite Hk0, Heq.
    + rewrite filter_cons_True by congruence. rewrite Hm. f_equal.
      symmetry. apply filter_none. intros r' Hr' Hkey.
      apply Hnot. rewrite <- Heq, <- Hkey. by apply Hin.
Qed.
End group_by.

(** ** Page layout *)

Lemma layout_key_columns (g : group (Z * string) glyph_bounds.row) :
  layout_key (example_usage.layout_columns g) = g.1.
Proof. by destruct g as [[n t] [r rest]]. Qed.

Lemma layout_keys (groups : list (group (Z * string) glyph_bounds.row)) :
  layout_key <$> (example_usage.layout_columns <$> groups) = groups.*1.
Proof.
  rewrite <- list_fmap_compose. apply list_fmap_ext.
  intros _ g _. apply layout_key_columns.
Qed.

Lemma line_members page gs (g : group (Z * string) glyph_bounds.row) :
  g ∈ group_by example_usage.line_key
        (filter (λ g, glyph_bounds.page_number g = page) gs) →
  members g = glyphs_of_line page g.1.1 g.1.2 gs.
Proof.
  intros Hg. rewrite (group_by_members _ _ _ Hg).
  unfold glyphs_of_line. rewrite list_filter_filter.
  apply list_filter_iff. intros r. unfold example_usage.line_key.
  destruct g as [[n t] m]. simpl. split.
  - intros [[= <- <-] Hp]. done.
  - intros (Hp & <- & <-). done.
Qed.

Lemma layout_line_key (g1 g2 : group (Z * string) glyph_bounds.row) :
  key_le (λ g : group (Z * string) glyph_bounds.row, [g.1.1]) g1 g2 →
  layout_line (example_usage.layout_columns g1)
  ≤ layout_line (example_usage.layout_columns g2).
Proof.
  unfold key_le. rewrite lex_le_1.
  by destruct g1 as [[n1 t1] [r1 rest1]], g2 as [[n2 t2] [r2 rest2]].
Qed.

(** C5, as the specification words it, fails: it speaks of every page,
    but a page number that is no SQLite integer makes the lookup raise
    where the claim promises the (empty) layout of a page without
    glyphs. *)
Lemma get_page_layout_rejects_large_page :
  (∀ g, g ∈ sample_glyphs → glyph_bounds.page_number g ≠ too_large)
  ∧ (example_usage.get_page_layout too_large sample_world).1
    = Raise OverflowError
  ∧ ¬ ∃ lines,
        (example_usage.get_page_layout too_large sample_world).1
        = Return lines.
Proof.
  split.
  { intros g _ Heq. destruct (glyph_fits g) as (Fp & _).
    unfold int64, too_large in *. lia. }
  split; [vm_compute; reflexivity|].
  intros [lines Hrun]. vm_compute in Hrun. discriminate.
Qed.

(** C5, amended.  On a store that holds the tables, for a page number
    that is an SQLite integer, the layout lookup of the page
    returns one row per pair (line_number, line_type) that occurs among
    the glyphs of the page: no pair has two rows, every glyph of the page
    has the row of its pair, and the row of a pair describes the glyphs
    of the page with that pair, of which there is at least one: their
    number, the least min_y and the greatest max_y, the least min_x and
    the greatest max_x among them.  The rows come in ascending order of
    line_number. *)
Theorem get_page_layout_groups w ws gs page :
  store w = Snapshot ws gs →
  int64 page →
  ∃ lines,
    example_usage.get_page_layout page w =
      (Return lines,
       after [CallConnect; CallExecute (fresh_handle (open_handles w));
              CallClose (fresh_handle (open_handles w))] w)
    ∧ NoDup (layout_key <$> lines)
    ∧ (∀ g, g ∈ gs → glyph_bounds.page_number g = page →
            example_usage.line_key g ∈ layout_key <$> lines)
    ∧ (∀ line, line ∈ lines →
         let glyphs :=
           glyphs_of_line page (layout_line line) (layout_type line) gs in
         glyphs ≠ []
         ∧ layout_count line = Z.of_nat (length glyphs)
         ∧ least glyph_bounds.min_y glyphs (layout_top line)
         ∧ greatest glyph_bounds.max_y glyphs (layout_bottom line)
         ∧ least glyph_bounds.min_x glyphs (layout_left line)
         ∧ greatest glyph_bounds.max_x glyphs (layout_right line))
    ∧ StronglySorted (λ a b, layout_line a ≤ layout_line b) lines.
Proof.
  intros Hs Fp. eexists. split.
  { rewrite get_page_layout_scoped. apply scoped_snapshot; [done|bindable]. }
  unfold fetchall, example_usage.select_layout.
  set (on_page := filter (λ g, glyph_bounds.page_number g = page) gs).
  destruct (group_by_keys example_usage.line_key on_page) as [Hnd Hcover].
  split; [|split; [|split]].
  - rewrite layout_keys. by rewrite order_by_perm.
  - intros g Hg Hpage. rewrite layout_keys, order_by_perm.
    apply Hcover. apply list_elem_of_filter. done.
  - intros line Hline.
    apply list_elem_of_fmap in Hline as (g & -> & Hg).
    apply order_by_elem_of in Hg.
    pose proof (line_members page gs g Hg) as Hm.
    destruct g as [[n t] [r rest]]. unfold members in Hm. simpl in *.
    rewrite <- Hm. split; [done|]. split; [done|].
    split; [apply sql_min_least|]. split; [apply sql_max_greatest|].
    split; [apply sql_min_least|apply sql_max_greatest].
  - eapply StronglySorted_project; [|apply order_by_sorted].
    apply layout_line_key.
Qed.

Lemma get_page_layout_groups_witness :
  store sample_world = Snapshot sample_words sample_glyphs
  ∧ int64 2
  ∧ ∃ lines,
      example_usage.get_page_layout 2 sample_world =
        (Return lines,
         after [CallConnect;
                CallExecute (fresh_handle (open_handles sample_world));
                CallClose (fresh_handle (open_handles sample_world))]
           sample_world)
      ∧ NoDup (layout_key <$> lines)
      ∧ (∀ g, g ∈ sample_glyphs → glyph_bounds.page_number g = 2 →
              example_usage.line_key g ∈ layout_key <$> lines)
      ∧ (∀ line, line ∈ lines →
           let glyphs :=
             glyphs_of_line 2 (layout_line line) (layout_type line)
               sample_glyphs in
           glyphs ≠ []
           ∧ layout_count line = Z.of_nat (length glyphs)
           ∧ least glyph_bounds.min_y glyphs (layout_top line)
           ∧ greatest glyph_bounds.max_y glyphs (layout_bottom line)
           ∧ least glyph_bounds.min_x glyphs (layout_left line)
           ∧ greatest glyph_bounds.max_x glyphs (layout_right line))
      ∧ StronglySorted (λ a b, layout_line a ≤ layout_line b) lines.
Proof.
  split; [reflexivity|]. split; [unfold int64; lia|].
  apply (get_page_layout_groups sample_world sample_words sample_glyphs 2);
    (reflexivity || (unfold int64; lia)).
Defined.

Example get_page_layout_sample :
  (example_usage.get_page_layout 2 sample_world).1 =
  Return [(1, "ayah", 2, 10, 30, 700, 760); (1, "marker", 1, 10, 30, 300, 340);
          (2, "ayah", 2, 40, 60, 550, 650)]%string.
Proof. vm_compute. reflexivity. Qed.

(** ** The explorer on a store it cannot read *)

(** Its word search raises to its caller like the lookups do. *)
Lemma find_word_positions_unreadable cursor arabic_word w :
  cursor ∈ open_handles w →
  store w = Empty ∨ store w = NotADatabase →
  raises (explore_database.find_word_positions cursor arabic_word) w.
Proof.
  intros Hopen Hs. unfold raises, explore_database.find_word_positions,
    mbind, IO_bind, bind, execute.
  simpl. rewrite decide_True by done.
  destruct Hs as [-> | ->]; by do 2 eexists.
Qed.

(** Its [main] catches what the exploration raises and ends normally,
    with the connection closed. *)
Example explore_main_on_empty_store :
  explore_database.main empty_world =
  (Return (),
   {| store := Empty; open_handles := [];
      calls := [CallConnect; CallExecute 1%nat; CallExecute 1%nat;
                CallClose 1%nat] |}).
Proof. vm_compute. reflexivity. Qed.

(** * Further properties of the scripts *)

(** ** What a lookup returns on a readable store *)

Lemma scoped_result {R A} params (q : Query R) (fetch : list R → A)
    w ws gs :
  store w = Snapshot ws gs →
  forallb bindable params = true →
  (scoped (Select params q) fetch w).1 = Return (fetch (q ws gs)).
Proof. intros Hs Hb. by rewrite (scoped_snapshot _ _ _ _ _ _ Hs Hb). Qed.

(** What a lookup returned, it computed from the tables. *)
Lemma scoped_returned {R A} params (q : Query R) (fetch : list R → A)
    w ws gs a :
  store w = Snapshot ws gs →
  (scoped (Select params q) fetch w).1 = Return a →
  a = fetch (q ws gs).
Proof.
  intros Hs Hrun. destruct (forallb bindable params) eqn:Hb.
  - rewrite (scoped_snapshot _ _ _ _ _ _ Hs Hb) in Hrun. by injection Hrun.
  - by rewrite (scoped_overflow _ _ _ _ _ _ Hs Hb) in Hrun.
Qed.

Lemma highlight_words_in_area_result w ws gs x1 y1 x2 y2 page :
  store w = Snapshot ws gs →
  int64 page → int64 x1 → int64 y1 → int64 x2 → int64 y2 →
  (example_usage.highlight_words_in_area x1 y1 x2 y2 (Some page) w).1 =
  Return (example_usage.select_area page x1 x2 y1 y2 ws gs).
Proof.
  intros Hs Fp Fx1 Fy1 Fx2 Fy2. rewrite highlight_words_in_area_scoped.
  erewrite scoped_result; [done|done|]. simpl default. bindable.
Qed.

Lemma select_area_elem_of page x1 x2 y1 y2 ws gs row :
  row ∈ example_usage.select_area page x1 x2 y1 y2 ws gs ↔
  ∃ r, r ∈ ws ∧ example_usage.in_area page x1 x2 y1 y2 r
       ∧ row = example_usage.area_columns r.
Proof.
  unfold example_usage.select_area. rewrite list_elem_of_fmap.
  split.
  - intros (r & -> & Hr).
    apply order_by_elem_of, list_elem_of_filter in Hr as [Ha Hin].
    by exists r.
  - intros (r & Hin & Ha & ->). exists r. split; [done|].
    apply order_by_elem_of, list_elem_of_filter. done.
Qed.

(** X1.  Enlarging the box never loses a word: for boxes and a page
    number that are SQLite integers, every row the region lookup returns
    for a box is also returned, as often, for any box that contains
    it. *)
Theorem highlight_words_in_area_monotone
    w ws gs x1 y1 x2 y2 x1' y1' x2' y2' page :
  store w = Snapshot ws gs →
  int64 page →
  int64 x1 → int64 y1 → int64 x2 → int64 y2 →
  int64 x1' → int64 y1' → int64 x2' → int64 y2' →
  x1' ≤ x1 → x2 ≤ x2' → y1' ≤ y1 → y2 ≤ y2' →
  ∃ inner outer,
    (example_usage.highlight_words_in_area x1 y1 x2 y2 (Some page) w).1
      = Return inner
    ∧ (example_usage.highlight_words_in_area x1' y1' x2' y2' (Some page) w).1
      = Return outer
    ∧ inner ⊆+ outer.
Proof.
  intros Hs Fp Fx1 Fy1 Fx2 Fy2 Fx1' Fy1' Fx2' Fy2' Hx1 Hx2 Hy1 Hy2.
  do 2 eexists.
  split; [by apply highlight_words_in_area_result|].
  split; [by apply highlight_words_in_area_result|].
  unfold example_usage.select_area. rewrite !order_by_perm.
  apply fmap_submseteq.
  rewrite <- (list_filter_filter_l
                (example_usage.in_area page x1 x2 y1 y2)
                (example_usage.in_area page x1' x2' y1' y2')).
  - apply sublist_submseteq, sublist_filter.
  - intros r. unfold example_usage.in_area. lia.
Qed.

Lemma highlight_words_in_area_monotone_witness :
  store sample_world = Snapshot sample_words sample_glyphs
  ∧ int64 2
  ∧ int64 50 ∧ int64 5 ∧ int64 400 ∧ int64 100
  ∧ int64 0 ∧ int64 0 ∧ int64 600 ∧ int64 400
  ∧ 0 ≤ 50 ∧ 400 ≤ 600 ∧ 0 ≤ 5 ∧ 100 ≤ 400
  ∧ ∃ inner outer,
      (example_usage.highlight_words_in_area 50 5 400 100 (Some 2)
         sample_world).1 = Return inner
      ∧ (example_usage.highlight_words_in_area 0 0 600 400 (Some 2)
           sample_world).1 = Return outer
      ∧ inner ⊆+ outer.
Proof.
  split; [reflexivity|]. do 9 (split; [unfold int64; lia|]).
  do 4 (split; [lia|]).
  apply (highlight_words_in_area_monotone
           sample_world sample_words sample_glyphs 50 5 400 100 0 0 600 400 2);
    first [reflexivity | lia | unfold int64; lia].
Defined.

(** X2.  A word found by a click is found by the region lookup: when
    the click lookup returns a row, it is the row (arabic_word,
    sura_number, ayah_number, word_position, min_x, max_x, min_y, max_y)
    of a stored record, and the region lookup of the same page returns
    that record's row (arabic_word, min_x, max_x, min_y, max_y,
    sura_number, ayah_number) for every box of SQLite integers that
    contains the record's box, its own box included. *)
Theorem word_click_handler_then_highlight w ws gs x y page row :
  store w = Snapshot ws gs →
  (example_usage.word_click_handler x y page w).1 = Return (Some row) →
  ∃ r,
    r ∈ ws
    ∧ row = (word_bounds.arabic_word r, word_bounds.sura_number r,
             word_bounds.ayah_number r, word_bounds.word_position r,
             word_bounds.min_x r, word_bounds.max_x r,
             word_bounds.min_y r, word_bounds.max_y r)
    ∧ ∀ x1 y1 x2 y2,
        int64 x1 → int64 y1 → int64 x2 → int64 y2 →
        x1 ≤ word_bounds.min_x r → word_bounds.max_x r ≤ x2 →
        y1 ≤ word_bounds.min_y r → word_bounds.max_y r ≤ y2 →
        ∃ words,
          (example_usage.highlight_words_in_area x1 y1 x2 y2 (Some page) w).1
            = Return words
          ∧ (word_bounds.arabic_word r,
             word_bounds.min_x r, word_bounds.max_x r,
             word_bounds.min_y r, word_bounds.max_y r,
             word_bounds.sura_number r, word_bounds.ayah_number r) ∈ words.
Proof.
  intros Hs Hclick. rewrite word_click_handler_scoped in Hclick.
  apply (scoped_returned _ _ _ _ _ _ _ Hs) in Hclick.
  unfold fetchone, example_usage.select_click in Hclick.
  rewrite head_fmap in Hclick. symmetry in Hclick.
  apply fmap_Some in Hclick as (r & Hhead & ->).
  apply head_filter_Some in Hhead as [Hin Hhit].
  exists r. split; [done|]. split; [done|].
  intros x1 y1 x2 y2 Fx1 Fy1 Fx2 Fy2 Hx1 Hx2 Hy1 Hy2.
  destruct (hit_fits _ _ _ _ Hhit) as (Fp & _).
  eexists. split; [by apply highlight_words_in_area_result|].
  apply select_area_elem_of. exists r. split; [done|]. split; [|done].
  unfold example_usage.hit in Hhit. unfold example_usage.in_area. lia.
Qed.

Lemma word_click_handler_then_highlight_witness :
  store fixture_world
    = Snapshot [word 1 1 1 1 "bismi" 90 160 5 40 I; fixture_word] []
  ∧ (example_usage.word_click_handler 125 20 2 fixture_world).1
    = Return (Some ("alif"%string, 2, 1, 1, 100, 150, 10, 30))
  ∧ ∃ r,
      r ∈ [word 1 1 1 1 "bismi" 90 160 5 40 I; fixture_word]
      ∧ ("alif"%string, 2, 1, 1, 100, 150, 10, 30)
        = (word_bounds.arabic_word r, word_bounds.sura_number r,
           word_bounds.ayah_number r, word_bounds.word_position r,
           word_bounds.min_x r, word_bounds.max_x r,
           word_bounds.min_y r, word_bounds.max_y r)
      ∧ ∀ x1 y1 x2 y2,
          int64 x1 → int64 y1 → int64 x2 → int64 y2 →
          x1 ≤ word_bounds.min_x r → word_bounds.max_x r ≤ x2 →
          y1 ≤ word_bounds.min_y r → word_bounds.max_y r ≤ y2 →
          ∃ words,
            (example_usage.highlight_words_in_area x1 y1 x2 y2 (Some 2)
               fixture_world).1 = Return words
            ∧ (word_bounds.arabic_word r,
               word_bounds.min_x r, word_bounds.max_x r,
               word_bounds.min_y r, word_bounds.max_y r,
               word_bounds.sura_number r, word_bounds.ayah_number r)
              ∈ words.
Proof.
  split; [reflexivity|]. split; [reflexivity|].
  apply (word_click_handler_then_highlight fixture_world
           [word 1 1 1 1 "bismi" 90 160 5 40 I; fixture_word] [] 125 20 2);
    reflexivity.
Defined.

(** X3.  Where several boxes contain the point, the click lookup answers
    with the record that comes first in the table: a record that contains
    the point and has no such record before it is the one returned,
    whatever follows it. *)
Theorem word_click_handler_earliest w before r behind gs x y page :
  store w = Snapshot (before ++ r :: behind) gs →
  (∀ r', r' ∈ before → ¬ example_usage.hit page x y r') →
  example_usage.hit page x y r →
  (example_usage.word_click_handler x y page w).1 =
  Return (Some (example_usage.click_columns r)).
Proof.
  intros Hs Hbefore Hr.
  destruct (hit_fits _ _ _ _ Hr) as (Fp & Fx & Fy).
  rewrite (word_click_handler_result _ _ _ _ _ _ Hs) by done.
  unfold fetchone, example_usage.select_click.
  rewrite list.filter_app, (filter_none _ before Hbefore).
  by rewrite filter_cons_True.
Qed.

Lemma word_click_handler_earliest_witness :
  store overlap_world
    = Snapshot ([] ++ word 2 2 1 1 "alif" 100 150 10 30 I
                   :: [word 2 2 1 2 "lam" 110 170 15 35 I]) []
  ∧ example_usage.hit 2 120 20 (word 2 2 1 2 "lam" 110 170 15 35 I)
  ∧ (example_usage.word_click_handler 120 20 2 overlap_world).1 =
    Return (Some (example_usage.click_columns
                    (word 2 2 1 1 "alif" 100 150 10 30 I))).
Proof.
  split; [reflexivity|]. split; [vm_compute; intuition discriminate|].
  apply (word_click_handler_earliest overlap_world []
           (word 2 2 1 1 "alif" 100 150 10 30 I)
           [word 2 2 1 2 "lam" 110 170 15 35 I] [] 120 20 2).
  - reflexivity.
  - intros r' Hr'. by apply not_elem_of_nil in Hr'.
  - vm_compute. intuition discriminate.
Defined.

(** X4.  The two text lookups agree: for a sura and an ayah number that
    are SQLite integers, every row the ayah lookup returns is the row
    (arabic_word, word_position, min_x, max_x, min_y, max_y, page_number)
    of a stored record of that sura and ayah, and looking up that
    record's word with the occurrence lookup returns the record's row
    (page_number, sura_number, ayah_number, word_position, min_x, max_x,
    min_y, max_y). *)
Theorem get_ayah_words_then_find_word_occurrences w ws gs sura_num ayah_num :
  store w = Snapshot ws gs →
  int64 sura_num → int64 ayah_num →
  ∃ words,
    (example_usage.get_ayah_words sura_num ayah_num w).1 = Return words
    ∧ ∀ row, row ∈ words →
        ∃ r,
          r ∈ ws
          ∧ row = (word_bounds.arabic_word r, word_bounds.word_position r,
                   word_bounds.min_x r, word_bounds.max_x r,
                   word_bounds.min_y r, word_bounds.max_y r,
                   word_bounds.page_number r)
          ∧ word_bounds.sura_number r = sura_num
          ∧ word_bounds.ayah_number r = ayah_num
          ∧ ∃ occurrences,
              (example_usage.find_word_occurrences
                 (word_bounds.arabic_word r) w).1 = Return occurrences
              ∧ (word_bounds.page_number r, sura_num, ayah_num,
                 word_bounds.word_position r,
                 word_bounds.min_x r, word_bounds.max_x r,
                 word_bounds.min_y r, word_bounds.max_y r) ∈ occurrences.
Proof.
  intros Hs Fs Fa. eexists. split.
  { rewrite get_ayah_words_scoped. apply scoped_result; [done|bindable]. }
  unfold fetchall, example_usage.select_ayah. intros row Hrow.
  apply list_elem_of_fmap in Hrow as (r & -> & Hr).
  apply order_by_elem_of, list_elem_of_filter in Hr as [[Hsura Hayah] Hin].
  exists r. repeat (split; [done|]). eexists. split.
  { rewrite find_word_occurrences_scoped. by apply scoped_result. }
  unfold fetchall, example_usage.select_occurrences.
  rewrite <- Hsura, <- Hayah.
  apply (list_elem_of_fmap_2 example_usage.occurrence_columns).
  apply order_by_elem_of, list_elem_of_filter. done.
Qed.

Lemma get_ayah_words_then_find_word_occurrences_witness :
  store sample_world = Snapshot sample_words sample_glyphs
  ∧ int64 2 ∧ int64 2
  ∧ ∃ words,
      (example_usage.get_ayah_words 2 2 sample_world).1 = Return words
      ∧ ∀ row, row ∈ words →
          ∃ r,
            r ∈ sample_words
            ∧ row = (word_bounds.arabic_word r, word_bounds.word_position r,
                     word_bounds.min_x r, word_bounds.max_x r,
                     word_bounds.min_y r, word_bounds.max_y r,
                     word_bounds.page_number r)
            ∧ word_bounds.sura_number r = 2
            ∧ word_bounds.ayah_number r = 2
            ∧ ∃ occurrences,
                (example_usage.find_word_occurrences
                   (word_bounds.arabic_word r) sample_world).1
                  = Return occurrences
                ∧ (word_bounds.page_number r, 2, 2,
                   word_bounds.word_position r,
                   word_bounds.min_x r, word_bounds.max_x r,
                   word_bounds.min_y r, word_bounds.max_y r) ∈ occurrences.
Proof.
  split; [reflexivity|]. do 2 (split; [unfold int64; lia|]).
  apply (get_ayah_words_then_find_word_occurrences
           sample_world sample_words sample_glyphs 2 2);
    (reflexivity || (unfold int64; lia)).
Defined.

(** ** Connections of other users *)

Lemma scoped_keeps_others {R A} params (q : Query R) (fetch : list R → A)
    w h :
  h ∈ open_handles w →
  h ∈ open_handles (scoped (Select params q) fetch w).2.
Proof.
  intros Hh. destruct (store w) as [| | | |ws gs] eqn:Hs.
  - by rewrite scoped_unopenable.
  - rewrite scoped_missing by done. by right.
  - rewrite scoped_not_a_database by done. by right.
  - rewrite scoped_empty by done. by right.
  - destruct (forallb bindable params) eqn:Hb.
    + by erewrite scoped_snapshot.
    + erewrite scoped_overflow by done. by right.
Qed.

(** X5.  A lookup closes no connection but its own: whatever the store,
    and whether the lookup returns or raises, a connection that was open
    before any of the five lookups is open after it. *)
Theorem lookups_keep_other_connections
    w h x1 y1 x2 y2 page_num sura_num ayah_num arabic_word x y page :
  h ∈ open_handles w →
  h ∈ open_handles
        (example_usage.highlight_words_in_area x1 y1 x2 y2 page_num w).2
  ∧ h ∈ open_handles (example_usage.get_ayah_words sura_num ayah_num w).2
  ∧ h ∈ open_handles (example_usage.find_word_occurrences arabic_word w).2
  ∧ h ∈ open_handles (example_usage.get_page_layout page w).2
  ∧ h ∈ open_handles (example_usage.word_click_handler x y page w).2.
Proof.
  intros Hh.
  rewrite highlight_words_in_area_scoped, get_ayah_words_scoped,
    find_word_occurrences_scoped, get_page_layout_scoped,
    word_click_handler_scoped.
  repeat split; by apply scoped_keeps_others.
Qed.

Lemma lookups_keep_other_connections_witness :
  4%nat ∈ open_handles sample_world
  ∧ 4%nat ∈ open_handles
      (example_usage.highlight_words_in_area 0 0 600 400 None sample_world).2
  ∧ 4%nat ∈ open_handles (example_usage.get_ayah_words 2 2 sample_world).2
  ∧ 4%nat ∈ open_handles
      (example_usage.find_word_occurrences "kitab" sample_world).2
  ∧ 4%nat ∈ open_handles (example_usage.get_page_layout 2 sample_world).2
  ∧ 4%nat ∈ open_handles
      (example_usage.word_click_handler 120 20 2 sample_world).2.
Proof.
  split; [left|].
  apply (lookups_keep_other_connections
           sample_world 4%nat 0 0 600 400 None 2 2 "kitab" 120 20 2).
  left.
Defined.

(** ** The demonstration script as a whole *)

Lemma bind_return {A B} (m : IO A) (k : A → IO B) w a w' :
  m w = (Return a, w') → (m ≫= k) w = k a w'.
Proof. intros Hm. unfold mbind, IO_bind, bind. by rewrite Hm. Qed.

Lemma bind_raise {A B} (m : IO A) (k : A → IO B) w e w' :
  m w = (Raise e, w') → (m ≫= k) w = (Raise e, w').
Proof. intros Hm. unfold mbind, IO_bind, bind. by rewrite Hm. Qed.

Lemma after_after cs1 cs2 w : after cs2 (after cs1 w) = after (cs1 ++ cs2) w.
Proof. unfold after. simpl. by rewrite app_assoc. Qed.

(** X6.  On a readable store the demonstration script runs its five
    lookups to the end: it returns normally, each lookup having made its
    own connect, execute and close, and it leaves the store and the set
    of open connections as they were. *)
Theorem example_main_completes w ws gs :
  store w = Snapshot ws gs →
  example_usage.main w =
    (Return (),
     after (mjoin (replicate 5
              [CallConnect; CallExecute (fresh_handle (open_handles w));
               CallClose (fresh_handle (open_handles w))])) w).
Proof.
  intros Hs. unfold example_usage.main.
  erewrite bind_return;
    [|rewrite get_ayah_words_scoped; by apply scoped_snapshot].
  erewrite bind_return;
    [|rewrite highlight_words_in_area_scoped; by apply scoped_snapshot].
  erewrite bind_return;
    [|rewrite find_word_occurrences_scoped; by apply scoped_snapshot].
  erewrite bind_return;
    [|rewrite get_page_layout_scoped; by apply scoped_snapshot].
  erewrite bind_return;
    [|rewrite word_click_handler_scoped; by apply scoped_snapshot].
  simpl. by rewrite !after_after.
Qed.

Lemma example_main_completes_witness :
  store sample_world = Snapshot sample_words sample_glyphs
  ∧ example_usage.main sample_world =
      (Return (),
       after (mjoin (replicate 5
                [CallConnect;
                 CallExecute (fresh_handle (open_handles sample_world));
                 CallClose (fresh_handle (open_handles sample_world))]))
         sample_world).
Proof.
  split; [reflexivity|].
  apply (example_main_completes sample_world sample_words sample_glyphs).
  reflexivity.
Defined.

(** X7.  On a store that cannot be read the demonstration script stops
    at its first lookup: the sqlite3 error of that lookup ends the
    script after a single connection attempt, so that no later lookup
    runs, and the store is as it was, but for the empty database created
    where no file existed. *)
Theorem example_main_stops_at_first_failure w :
  unavailable (store w) → fails_unavailable example_usage.main w.
Proof.
  intros Hs.
  destruct (scoped_unavailable
              (Select [PInt 2; PInt 1] (example_usage.select_ayah 2 1))
              fetchall w Hs)
    as (e & w' & Hrun & He & Hstore & Hcalls).
  exists e, w'. split; [|done].
  unfold example_usage.main. eapply bind_raise.
  by rewrite get_ayah_words_scoped.
Qed.

Lemma example_main_stops_at_first_failure_witness :
  unavailable (store missing_world)
  ∧ fails_unavailable example_usage.main missing_world
  ∧ store (example_usage.main missing_world).2 = Empty.
Proof.
  split; [do 3 right; reflexivity|]. split; [|reflexivity].
  apply (example_main_stops_at_first_failure missing_world).
  do 3 right. reflexivity.
Defined.

(** ** More on the page layout *)

Lemma get_page_layout_result w ws gs page :
  store w = Snapshot ws gs →
  int64 page →
  (example_usage.get_page_layout page w).1 =
  Return (example_usage.select_layout page ws gs).
Proof.
  intros Hs Fp. rewrite get_page_layout_scoped.
  erewrite scoped_result; [done|done|bindable].
Qed.

Lemma select_layout_covers page ws gs g :
  g ∈ gs → glyph_bounds.page_number g = page →
  example_usage.line_key g
  ∈ layout_key <$> example_usage.select_layout page ws gs.
Proof.
  intros Hg Hpage. unfold example_usage.select_layout.
  rewrite layout_keys, order_by_perm.
  apply group_by_keys, list_elem_of_filter. done.
Qed.

Lemma select_layout_summary page ws gs line :
  line ∈ example_usage.select_layout page ws gs →
  ∃ r rest,
    glyphs_of_line page (layout_line line) (layout_type line) gs = r :: rest
    ∧ layout_count line = Z.of_nat (length (r :: rest))
    ∧ least glyph_bounds.min_y (r :: rest) (layout_top line)
    ∧ greatest glyph_bounds.max_y (r :: rest) (layout_bottom line)
    ∧ least glyph_bounds.min_x (r :: rest) (layout_left line)
    ∧ greatest glyph_bounds.max_x (r :: rest) (layout_right line).
Proof.
  unfold example_usage.select_layout. intros Hline.
  apply list_elem_of_fmap in Hline as (g & -> & Hg).
  apply order_by_elem_of in Hg.
  pose proof (line_members page gs g Hg) as Hm.
  destruct g as [[n t] [r rest]]. unfold members in Hm. simpl in *.
  exists r, rest. split; [done|]. split; [done|].
  split; [apply sql_min_least|]. split; [apply sql_max_greatest|].
  split; [apply sql_min_least|apply sql_max_greatest].
Qed.

Lemma group_insert_size {A K} `{EqDecision K} (key : A → K) r
    (groups : list (group K A)) :
  sum_list_with (λ g, length (members g)) (group_insert key r groups) =
  S (sum_list_with (λ g, length (members g)) groups).
Proof.
  rewrite !sum_list_with_foldr.
  induction groups as [|[k [r0 rest]] groups IH]; [done|].
  cbn [group_insert]. destruct (decide (key r = k)); cbn [foldr].
  - unfold members. cbn [fst snd length]. lia.
  - rewrite IH. lia.
Qed.

Lemma group_by_size {A K} `{EqDecision K} (key : A → K) (rows : list A) :
  sum_list_with (λ g, length (members g)) (group_by key rows) = length rows.
Proof.
  induction rows as [|r rows IH]; [done|].
  cbn [group_by foldr length]. rewrite group_insert_size. f_equal. apply IH.
Qed.

Lemma total_count_columns
    (groups : list (group (Z * string) glyph_bounds.row)) :
  total_count (example_usage.layout_columns <$> groups) =
  Z.of_nat (sum_list_with (λ g, length (members g)) groups).
Proof.
  rewrite sum_list_with_foldr.
  induction groups as [|[[n t] [r rest]] groups IH]; [done|].
  unfold total_count in *. csimpl. rewrite IH.
  unfold sql_count. simpl. lia.
Qed.

(** X8. For a page number that is an SQLite integer, the glyph counts of
    the page's layout rows add up to the number of glyphs on the page,
    which is the glyph count the explorer's page statistics report for
    that page. *)
Theorem get_page_layout_counts_add_up w ws gs page :
  store w = Snapshot ws gs →
  int64 page →
  ∃ lines,
    (example_usage.get_page_layout page w).1 = Return lines
    ∧ total_count lines
      = Z.of_nat
          (length (filter (λ g, glyph_bounds.page_number g = page) gs))
    ∧ explore_database.select_page_glyph_count page ws gs
      = [total_count lines].
Proof.
  intros Hs Fp. eexists. split; [by apply get_page_layout_result|].
  assert (total_count (example_usage.select_layout page ws gs)
          = Z.of_nat
              (length (filter (λ g, glyph_bounds.page_number g = page) gs)))
    as Htotal.
  { unfold example_usage.select_layout.
    rewrite total_count_columns, order_by_perm. by rewrite group_by_size. }
  split; [done|].
  unfold explore_database.select_page_glyph_count, sql_count.
  by rewrite Htotal.
Qed.

Lemma get_page_layout_counts_add_up_witness :
  store sample_world = Snapshot sample_words sample_glyphs
  ∧ int64 2
  ∧ ∃ lines,
      (example_usage.get_page_layout 2 sample_world).1 = Return lines
      ∧ total_count lines
        = Z.of_nat
            (length (filter (λ g, glyph_bounds.page_number g = 2)
                       sample_glyphs))
      ∧ explore_database.select_page_glyph_count 2 sample_words sample_glyphs
        = [total_count lines].
Proof.
  split; [reflexivity|]. split; [unfold int64; lia|].
  apply (get_page_layout_counts_add_up
           sample_world sample_words sample_glyphs 2);
    (reflexivity || (unfold int64; lia)).
Defined.

(** X9. Every glyph of the page lies inside the box of its line: for a
    page number that is an SQLite integer, the layout has a row for the
    glyph's line number and type, and that row's top, bottom, left and
    right enclose the glyph's box. *)
Theorem get_page_layout_encloses_glyphs w ws gs page :
  store w = Snapshot ws gs →
  int64 page →
  ∃ lines,
    (example_usage.get_page_layout page w).1 = Return lines
    ∧ ∀ g, g ∈ gs → glyph_bounds.page_number g = page →
        ∃ line,
          line ∈ lines
          ∧ layout_line line = glyph_bounds.line_number g
          ∧ layout_type line = glyph_bounds.line_type g
          ∧ layout_top line ≤ glyph_bounds.min_y g
          ∧ glyph_bounds.max_y g ≤ layout_bottom line
          ∧ layout_left line ≤ glyph_bounds.min_x g
          ∧ glyph_bounds.max_x g ≤ layout_right line.
Proof.
  intros Hs Fp. eexists. split; [by apply get_page_layout_result|].
  intros g Hg Hpage.
  pose proof (select_layout_covers page ws gs g Hg Hpage) as Hkey.
  apply list_elem_of_fmap in Hkey as (line & Hkey & Hline).
  unfold example_usage.line_key, layout_key in Hkey.
  injection Hkey as Hn Ht.
  destruct (select_layout_summary page ws gs line Hline)
    as (r & rest & Hglyphs & _ & [_ Htop] & [_ Hbottom] & [_ Hleft]
        & [_ Hright]).
  assert (g ∈ r :: rest) as Hmember.
  { rewrite <- Hglyphs. apply list_elem_of_filter. done. }
  exists line. repeat split; auto.
Qed.

Lemma get_page_layout_encloses_glyphs_witness :
  store sample_world = Snapshot sample_words sample_glyphs
  ∧ int64 2
  ∧ ∃ lines,
      (example_usage.get_page_layout 2 sample_world).1 = Return lines
      ∧ ∀ g, g ∈ sample_glyphs → glyph_bounds.page_number g = 2 →
          ∃ line,
            line ∈ lines
            ∧ layout_line line = glyph_bounds.line_number g
            ∧ layout_type line = glyph_bounds.line_type g
            ∧ layout_top line ≤ glyph_bounds.min_y g
            ∧ glyph_bounds.max_y g ≤ layout_bottom line
            ∧ layout_left line ≤ glyph_bounds.min_x g
            ∧ glyph_bounds.max_x g ≤ layout_right line.
Proof.
  split; [reflexivity|]. split; [unfold int64; lia|].
  apply (get_page_layout_encloses_glyphs
           sample_world sample_words sample_glyphs 2);
    (reflexivity || (unfold int64; lia)).
Defined.

Lemma glyphs_of_line_elem_of page line type gs g :
  g ∈ glyphs_of_line page line type gs →
  g ∈ gs ∧ glyph_bounds.page_number g = page.
Proof. intros Hg. apply list_elem_of_filter in Hg. tauto. Qed.

(** X10. Well-formed glyph boxes give well-formed line boxes: for a page
    number that is an SQLite integer, when every glyph of the page has
    min_x ≤ max_x and min_y ≤ max_y, every layout row counts at least one
    glyph and has left ≤ right and top ≤ bottom. *)
Theorem get_page_layout_boxes_well_formed w ws gs page :
  store w = Snapshot ws gs →
  int64 page →
  (∀ g, g ∈ gs → glyph_bounds.page_number g = page →
        glyph_bounds.min_x g ≤ glyph_bounds.max_x g
        ∧ glyph_bounds.min_y g ≤ glyph_bounds.max_y g) →
  ∃ lines,
    (example_usage.get_page_layout page w).1 = Return lines
    ∧ ∀ line, line ∈ lines →
        1 ≤ layout_count line
        ∧ layout_left line ≤ layout_right line
        ∧ layout_top line ≤ layout_bottom line.
Proof.
  intros Hs Fp Hwf. eexists. split; [by apply get_page_layout_result|].
  intros line Hline.
  destruct (select_layout_summary page ws gs line Hline)
    as (r & rest & Hglyphs & Hcount & [(gt & Hgt & Htop) _] & [_ Hbottom]
        & [(gl & Hgl & Hleft) _] & [_ Hright]).
  split; [rewrite Hcount; simpl; lia|].
  pose proof (Hright gl Hgl). pose proof (Hbottom gt Hgt).
  rewrite <- Hglyphs in Hgl, Hgt.
  apply glyphs_of_line_elem_of in Hgl as [Hgl Hpl], Hgt as [Hgt Hpt].
  destruct (Hwf gl Hgl Hpl) as [? _], (Hwf gt Hgt Hpt) as [_ ?]. lia.
Qed.

Lemma get_page_layout_boxes_well_formed_witness :
  store sample_world = Snapshot sample_words sample_glyphs
  ∧ int64 2
  ∧ (∀ g, g ∈ sample_glyphs → glyph_bounds.page_number g = 2 →
          glyph_bounds.min_x g ≤ glyph_bounds.max_x g
          ∧ glyph_bounds.min_y g ≤ glyph_bounds.max_y g)
  ∧ ∃ lines,
      (example_usage.get_page_layout 2 sample_world).1 = Return lines
      ∧ ∀ line, line ∈ lines →
          1 ≤ layout_count line
          ∧ layout_left line ≤ layout_right line
          ∧ layout_top line ≤ layout_bottom line.
Proof.
  assert (∀ g, g ∈ sample_glyphs → glyph_bounds.page_number g = 2 →
               glyph_bounds.min_x g ≤ glyph_bounds.max_x g
               ∧ glyph_bounds.min_y g ≤ glyph_bounds.max_y g) as Hwf.
  { intros g Hg _. unfold sample_glyphs in Hg.
    repeat (apply elem_of_cons in Hg as [->|Hg]; [simpl; lia|]).
    by apply not_elem_of_nil in Hg. }
  split; [reflexivity|]. split; [unfold int64; lia|]. split; [exact Hwf|].
  apply (get_page_layout_boxes_well_formed
           sample_world sample_words sample_glyphs 2);
    [reflexivity|unfold int64; lia|exact Hwf].
Defined.

(** X11.  A page without glyphs, its number an SQLite integer, has an
    empty layout, returned normally, and only such a page has. *)
Theorem get_page_layout_empty_page w ws gs page :
  store w = Snapshot ws gs →
  int64 page →
  ∃ lines,
    (example_usage.get_page_layout page w).1 = Return lines
    ∧ (lines = [] ↔ ∀ g, g ∈ gs → glyph_bounds.page_number g ≠ page).
Proof.
  intros Hs Fp. eexists. split; [by apply get_page_layout_result|]. split.
  - intros Hnil g Hg Hpage.
    pose proof (select_layout_covers page ws gs g Hg Hpage) as Hkey.
    rewrite Hnil in Hkey. by apply not_elem_of_nil in Hkey.
  - intros Hnone.
    destruct (example_usage.select_layout page ws gs) as [|line lines] eqn:Hl;
      [done|].
    destruct (select_layout_summary page ws gs line) as (r & rest & Hg & _).
    { rewrite Hl. left. }
    assert (r ∈ glyphs_of_line page (layout_line line) (layout_type line) gs)
      as Hr by (rewrite Hg; left).
    apply glyphs_of_line_elem_of in Hr as [Hr Hpage].
    by destruct (Hnone r Hr).
Qed.

Lemma get_page_layout_empty_page_witness :
  store sample_world = Snapshot sample_words sample_glyphs
  ∧ int64 7
  ∧ (example_usage.get_page_layout 7 sample_world).1 = Return []
  ∧ ∃ lines,
      (example_usage.get_page_layout 7 sample_world).1 = Return lines
      ∧ (lines = [] ↔
         ∀ g, g ∈ sample_glyphs → glyph_bounds.page_number g ≠ 7).
Proof.
  split; [reflexivity|]. split; [unfold int64; lia|].
  split; [reflexivity|].
  apply (get_page_layout_empty_page sample_world sample_words sample_glyphs 7);
    (reflexivity || (unfold int64; lia)).
Defined.

Lemma groups_at_most_rows {A K} (groups : list (group K A)) :
  (length groups ≤ sum_list_with (λ g, length (members g)) groups)%nat.
Proof.
  rewrite sum_list_with_foldr.
  induction groups as [|[k [r rest]] groups IH]; [done|].
  cbn [foldr length].
  assert (1 ≤ length (members (k, (r, rest))))%nat
    by (unfold members; simpl; lia).
  lia.
Qed.

(** X12. The explorer's page statistics and the page layout agree: for one
    page, its number an SQLite integer, the number of distinct line
    numbers the statistics report is at most the number of layout rows,
    which is at most the glyph count the statistics report. *)
Theorem show_page_stats_bounds_layout w ws gs page :
  store w = Snapshot ws gs →
  int64 page →
  ∃ lines line_count glyph_count,
    (example_usage.get_page_layout page w).1 = Return lines
    ∧ explore_database.select_page_line_count page ws gs = [line_count]
    ∧ explore_database.select_page_glyph_count page ws gs = [glyph_count]
    ∧ line_count ≤ Z.of_nat (length lines) ≤ glyph_count.
Proof.
  intros Hs Fp. do 3 eexists. split; [by apply get_page_layout_result|].
  split; [reflexivity|]. split; [reflexivity|].
  unfold count_distinct, sql_count.
  set (on_page := filter (λ g, glyph_bounds.page_number g = page) gs).
  split; apply inj_le.
  - rewrite <- (length_fmap layout_line
                  (example_usage.select_layout page ws gs)).
    apply submseteq_length, NoDup_submseteq; [apply NoDup_remove_dups|].
    intros n Hn. apply elem_of_remove_dups, list_elem_of_fmap in Hn
      as (g & -> & Hg).
    apply list_elem_of_filter in Hg as [Hpage Hg].
    pose proof (select_layout_covers page ws gs g Hg Hpage) as Hkey.
    apply list_elem_of_fmap in Hkey as (line & Hkey & Hline).
    unfold example_usage.line_key, layout_key in Hkey.
    assert (glyph_bounds.line_number g = layout_line line) as ->
      by congruence.
    by apply list_elem_of_fmap_2.
  - unfold example_usage.select_layout.
    rewrite length_fmap, order_by_perm.
    rewrite <- (group_by_size example_usage.line_key on_page).
    apply groups_at_most_rows.
Qed.

Lemma show_page_stats_bounds_layout_witness :
  store sample_world = Snapshot sample_words sample_glyphs
  ∧ int64 2
  ∧ ∃ lines line_count glyph_count,
      (example_usage.get_page_layout 2 sample_world).1 = Return lines
      ∧ explore_database.select_page_line_count 2 sample_words sample_glyphs
        = [line_count]
      ∧ explore_database.select_page_glyph_count 2 sample_words sample_glyphs
        = [glyph_count]
      ∧ line_count ≤ Z.of_nat (length lines) ≤ glyph_count.
Proof.
  split; [reflexivity|]. split; [unfold int64; lia|].
  apply (show_page_stats_bounds_layout
           sample_world sample_words sample_glyphs 2);
    (reflexivity || (unfold int64; lia)).
Defined.

(** ** The explorer as a whole *)

Lemma harmless_ret {A} (a : A) : harmless (mret a).
Proof. by intros w. Qed.

Lemma harmless_raise_type_error {A} : harmless (raise (A:=A) TypeError).
Proof. by intros w. Qed.

Lemma harmless_bind {A B} (m : IO A) (k : A → IO B) :
  harmless m → (∀ a, harmless (k a)) → harmless (m ≫= k).
Proof.
  intros Hm Hk w. unfold mbind, IO_bind, bind.
  destruct (Hm w) as [Hs Hx]. destruct (m w) as [[a|e] w1]; simpl in *.
  - destruct (Hk a w1) as [Hs' Hx']. split; [congruence|done].
  - split; [done|]. intros c [= ->]. by apply (Hx c).
Qed.

Lemma harmless_execute {R} conn params (q : Query R) :
  harmless (execute conn (Select params q)).
Proof.
  intros w. unfold execute, called. simpl.
  destruct (decide _); [destruct (store w)|]; try by split.
  destruct (forallb _ _); by split.
Qed.

Lemma harmless_execute_catalog {R} conn (q : list string → list R) :
  harmless (execute_catalog conn q).
Proof.
  intros w. unfold execute_catalog, called. simpl.
  destruct (decide _); [destruct (store w)|]; by split.
Qed.

Lemma harmless_for_each {A} (xs : list A) (body : A → IO unit) :
  (∀ x, harmless (body x)) → harmless (explore_database.for_each xs body).
Proof.
  intros Hb. induction xs as [|x xs IH]; simpl.
  - apply harmless_ret.
  - apply harmless_bind; auto.
Qed.

Create HintDb harmless.

#[local] Hint Resolve harmless_ret harmless_raise_type_error
  harmless_execute harmless_execute_catalog : harmless.

Ltac harmless :=
  repeat first
    [ apply harmless_bind; [|intros ?]
    | apply harmless_for_each; intros ?
    | solve [auto with harmless] ].

(** Whatever the exploration raises is caught. *)
Lemma exploration_returns cursor w :
  (exploration cursor w).1 = Return ()
  ∧ store (exploration cursor w).2 = store w.
Proof.
  unfold exploration.
  match goal with |- context [try_except ?b _] => set (body := b) end.
  assert (harmless body) as Hbody.
  { unfold body, explore_database.show_schema,
      explore_database.show_summary_stats, explore_database.show_sample_data,
      explore_database.show_page_stats, explore_database.find_word_positions.
    harmless. destruct (fetchone _); harmless. }
  destruct (Hbody w) as [Hs Hx]. unfold try_except.
  destruct (body w) as [[[]|e] w1]; simpl in *; [done|].
  destruct e; try done. by destruct (Hx code).
Qed.

Lemma explore_main_run w :
  store w ≠ Unopenable →
  explore_database.main w =
  try_finally (exploration (fresh_handle (open_handles w)))
    (close (fresh_handle (open_handles w)))
    (leaking (fresh_handle (open_handles w)) [CallConnect] w).
Proof.
  intros Hs. destruct w as [st hs cs]. simpl in *.
  destruct st; [done|..]; reflexivity.
Qed.

(** X13.  The explorer's [main] never passes an sqlite3 error on: when
    the database cannot be opened it exits with status 1, and in every
    other case, whatever goes wrong during the exploration, it returns
    normally. *)
Theorem explore_main_outcome w :
  (explore_database.main w).1 =
  match store w with
  | Unopenable => Raise (SystemExit 1)
  | _ => Return ()
  end.
Proof.
  destruct (store w) eqn:Hs.
  { by rewrite (proj2 (explore_connect_db_unopenable w Hs)). }
  all: rewrite explore_main_run by congruence; unfold try_finally;
    match goal with
    | |- context [exploration ?c ?w1] =>
        destruct (exploration_returns c w1) as [Hret _];
        destruct (exploration c w1) as [[[]|e] w2]; simpl in Hret
    end; done.
Qed.

(** X14.  The explorer's [main] leaves no connection behind and never
    changes the tables: on every store, and on every path through it, the
    connections open afterwards are those open before, and at the path
    is what connecting leaves there, the store as it was, but for the
    empty database created where no file existed. *)
Theorem explore_main_leaves_no_trace w :
  store (explore_database.main w).2 = opened (store w)
  ∧ open_handles (explore_database.main w).2 = open_handles w
  ∧ (store w ≠ Missing → opened (store w) = store w)
  ∧ (store w = Missing → opened (store w) = Empty).
Proof.
  split; [|split; [apply explore_main_closes|]].
  - destruct (store w) eqn:Hs.
    { rewrite (proj2 (explore_connect_db_unopenable w Hs)). simpl.
      by rewrite Hs. }
    all: rewrite explore_main_run by congruence; unfold try_finally;
      match goal with
      | |- context [exploration ?c ?w1] =>
          destruct (exploration_returns c w1) as [_ Hst];
          destruct (exploration c w1) as [[[]|e] w2]; simpl in *
      end; rewrite Hst; simpl; by rewrite Hs.
  - split; [by destruct (store w)|by intros ->].
Qed.

(** Where no file exists the explorer creates the database, finds it
    empty and ends normally. *)
Example explore_main_on_missing_store :
  explore_database.main missing_world =
  (Return (),
   {| store := Empty; open_handles := [];
      calls := [CallConnect; CallExecute 1%nat; CallExecute 1%nat;
                CallClose 1%nat] |}).
Proof. vm_compute. reflexivity. Qed.

(** ** The explorer's statements *)

(** X16.  The word the explorer's [main] searches for is always found:
    the first-word statement yields nothing only on an empty table, and
    otherwise yields the word of the first record, for which the position
    statement returns at least that record's row. *)
Theorem explore_first_word_is_found ws gs :
  match fetchone (explore_database.select_first_word ws gs) with
  | None => ws = []
  | Some first_word =>
      ∃ r rest,
        ws = r :: rest ∧ first_word = word_bounds.arabic_word r
        ∧ example_usage.occurrence_columns r
          ∈ explore_database.select_positions first_word ws gs
  end.
Proof.
  destruct ws as [|r rest]; [done|]. simpl.
  exists r, rest. split; [done|]. split; [done|].
  unfold explore_database.select_positions.
  apply (list_elem_of_fmap_2 example_usage.occurrence_columns).
  apply order_by_elem_of, list_elem_of_filter. split; [done|left].
Qed.

(** X17.  The sample the explorer shows is the head of the table in text
    order: at most ten rows, ten when the table has that many, each a
    stored record taken no more often than it is stored, in ascending
    order of (page, sura, ayah, position), and no record left out comes
    before one that is shown. *)
Theorem select_sample_first_ten ws gs :
  length (explore_database.select_sample ws gs) = (10 `min` length ws)%nat
  ∧ explore_database.select_sample ws gs ⊆+ ws
  ∧ StronglySorted (key_le example_usage.occurrence_key)
      (explore_database.select_sample ws gs)
  ∧ ∀ r, r ∈ ws →
      r ∈ explore_database.select_sample ws gs
      ∨ ∀ shown, shown ∈ explore_database.select_sample ws gs →
          key_le example_usage.occurrence_key shown r.
Proof.
  unfold explore_database.select_sample.
  set (sorted := order_by example_usage.occurrence_key ws).
  assert (sorted ≡ₚ ws) as Hperm by apply order_by_perm.
  assert (StronglySorted (key_le example_usage.occurrence_key)
            (take 10 sorted ++ drop 10 sorted)) as Hsorted.
  { rewrite take_drop. apply order_by_sorted. }
  apply StronglySorted_app in Hsorted as (Hcross & Htake & _).
  split; [by rewrite length_take, Hperm|].
  split; [rewrite <- Hperm; apply sublist_submseteq, sublist_take|].
  split; [done|].
  intros r Hr. rewrite <- Hperm, <- (take_drop 10 sorted) in Hr.
  apply elem_of_app in Hr as [Hr|Hr]; [by left|right].
  intros shown Hshown. by apply Hcross.
Qed.

Lemma distinct_in_range {A} (col : A → Z) (r : A) (rest : list A) :
  (1 ≤ count_distinct col (r :: rest)
     ≤ sql_max col r rest - sql_min col r rest + 1)%Z.
Proof.
  unfold count_distinct.
  destruct (sql_min_least col r rest) as [_ Hmin].
  destruct (sql_max_greatest col r rest) as [_ Hmax].
  set (lo := sql_min col r rest) in *. set (hi := sql_max col r rest) in *.
  clearbody lo hi. split.
  - assert (col r ∈ remove_dups (col <$> r :: rest)) as Hin.
    { apply elem_of_remove_dups, list_elem_of_fmap_2. left. }
    destruct (remove_dups (col <$> r :: rest)); [|cbn [length]; lia].
    by apply not_elem_of_nil in Hin.
  - assert (remove_dups (col <$> r :: rest) ⊆+ seqZ lo (hi - lo + 1)) as Hsub.
    { apply NoDup_submseteq; [apply NoDup_remove_dups|].
      intros v Hv. apply elem_of_remove_dups, list_elem_of_fmap in Hv
        as (x & -> & Hx).
      apply elem_of_seqZ. specialize (Hmin x Hx). specialize (Hmax x Hx).
      lia. }
    apply submseteq_length in Hsub. rewrite length_seqZ in Hsub.
    pose proof (Hmin r ltac:(left)). pose proof (Hmax r ltac:(left)). lia.
Qed.

Lemma distinct_at_most_count {A K} `{EqDecision K} (col : A → K) rows :
  (0 ≤ count_distinct col rows ≤ sql_count rows)%Z.
Proof.
  unfold count_distinct, sql_count. split; [lia|]. apply inj_le.
  rewrite <- (length_fmap col rows).
  apply submseteq_length, NoDup_submseteq; [apply NoDup_remove_dups|].
  intros v. by rewrite elem_of_remove_dups.
Qed.

(** X18.  The summary the explorer shows is consistent: the number of
    distinct pages is at most the number of words, and on a table that is
    not empty the page range has min ≤ max and room for all the distinct
    pages, max - min + 1 at least; on an empty table the counts are 0 and
    the range is NULL.  The same holds for the suras. *)
Theorem show_summary_stats_consistent ws gs :
  ∃ word_count page_count page_range sura_count sura_range,
    explore_database.select_word_count ws gs = [word_count]
    ∧ explore_database.select_page_count ws gs = [page_count]
    ∧ explore_database.select_page_range ws gs = [page_range]
    ∧ explore_database.select_sura_count ws gs = [sura_count]
    ∧ explore_database.select_sura_range ws gs = [sura_range]
    ∧ 0 ≤ page_count ≤ word_count
    ∧ 0 ≤ sura_count ≤ word_count
    ∧ match page_range, sura_range with
      | (Some min_page, Some max_page), (Some min_sura, Some max_sura) =>
          ws ≠ []
          ∧ 1 ≤ page_count ≤ max_page - min_page + 1
          ∧ 1 ≤ sura_count ≤ max_sura - min_sura + 1
      | (None, None), (None, None) =>
          ws = [] ∧ word_count = 0 ∧ page_count = 0 ∧ sura_count = 0
      | _, _ => False
      end.
Proof.
  do 5 eexists. do 5 (split; [reflexivity|]).
  split; [apply distinct_at_most_count|].
  split; [apply distinct_at_most_count|].
  destruct ws as [|r rest]; [done|]. simpl.
  split; [done|]. split; apply distinct_in_range.
Qed.

(** X19. A region lookup never returns more rows than the page has words:
    whatever the box of SQLite integers, the number of rows is at most the
    word count the explorer's page statistics report for that page. *)
Theorem highlight_words_in_area_at_most_page w ws gs x1 y1 x2 y2 page :
  store w = Snapshot ws gs →
  int64 page → int64 x1 → int64 y1 → int64 x2 → int64 y2 →
  ∃ words word_count,
    (example_usage.highlight_words_in_area x1 y1 x2 y2 (Some page) w).1
      = Return words
    ∧ explore_database.select_page_word_count page ws gs = [word_count]
    ∧ Z.of_nat (length words) ≤ word_count.
Proof.
  intros Hs Fp Fx1 Fy1 Fx2 Fy2. do 2 eexists.
  split; [by apply highlight_words_in_area_result|].
  split; [reflexivity|].
  unfold example_usage.select_area, sql_count. apply inj_le.
  rewrite length_fmap, order_by_perm.
  rewrite <- (list_filter_filter_l
                (example_usage.in_area page x1 x2 y1 y2)
                (λ r, word_bounds.page_number r = page)).
  - apply length_filter.
  - intros r Hr. apply Hr.
Qed.

Lemma highlight_words_in_area_at_most_page_witness :
  store sample_world = Snapshot sample_words sample_glyphs
  ∧ int64 2 ∧ int64 0 ∧ int64 0 ∧ int64 600 ∧ int64 400
  ∧ ∃ words word_count,
      (example_usage.highlight_words_in_area 0 0 600 400 (Some 2)
         sample_world).1 = Return words
      ∧ explore_database.select_page_word_count 2 sample_words sample_glyphs
        = [word_count]
      ∧ Z.of_nat (length words) ≤ word_count.
Proof.
  split; [reflexivity|]. do 5 (split; [unfold int64; lia|]).
  apply (highlight_words_in_area_at_most_page
           sample_world sample_words sample_glyphs 0 0 600 400 2);
    (reflexivity || (unfold int64; lia)).
Defined.
